(** * Signal repository of Baileys (src/Signal/libsignal.ts): LID -> JID
      normalisation, protocol-address resolution and the 1:1 / group
      repository operations, as a shallow embedding.

    Definitions:
    - [JSString]  : the string operations the source uses;
    - [RegExp]    : a backtracking matcher for the regular-expression
                    literals of the source, with [test], [replace], [match];
    - [Effects]   : the types of Types/Auth.ts, and programs over the
                    collaborators (key store, libsignal, WASignalGroup) as
                    trees of calls, with their runs;
    - [Repository]: the functions of libsignal.ts;
    - [SpecModel] : [jidDecode] and [SenderKeyName], which libsignal.ts
                    imports from files that are not at hand;
    - [Memory]    : an in-memory key store and simple collaborators, to run
                    the functions on concrete inputs;
    - [Notions]   : the predicates of the statements.
    Then the facts about strings, runs and the matcher, and the theorems
    about the repository. *)

From Stdlib Require Import Ascii String ZArith Lia List Bool.

From stdpp Require Import base option list strings gmap pretty.

Set Default Proof Using "Type".

Local Open Scope Z_scope.

Local Open Scope nat_scope.

(* ===================================================================== *)
(** ** Strings *)
(* ===================================================================== *)

Module JSString.

(** [s.slice(n)] for [0 <= n]. *)
Fixpoint drop (n : nat) (s : string) : string :=
  match n, s with
  | O, _ => s
  | S n', String _ s' => drop n' s'
  | S _, EmptyString => EmptyString
  end.

(** [s.slice(0, n)]. *)
Fixpoint take (n : nat) (s : string) : string :=
  match n, s with
  | O, _ => EmptyString
  | S n', String a s' => String a (take n' s')
  | S _, EmptyString => EmptyString
  end.

(** Every character of [s] satisfies [p]. *)
Fixpoint all (p : ascii -> bool) (s : string) : bool :=
  match s with
  | EmptyString => true
  | String a s' => p a && all p s'
  end.

End JSString.

(* ===================================================================== *)
(** ** Regular expressions *)
(* ===================================================================== *)

Module RegExp.
Import JSString.

(** Case folding of the [i] flag. Every pattern character of the source is
    an ASCII character, and a character outside ASCII never folds to an
    ASCII one, so folding the letters a-z is all that is observable. *)
Definition canonicalize (ignoreCase : bool) (ch : ascii) : ascii :=
  if ignoreCase then
    let n := N_of_ascii ch in
    if ((97 <=? n) && (n <=? 122))%N then ascii_of_N (n - 32) else ch
  else ch.

Global Arguments canonicalize : simpl never.

(** Equality of two strings up to the case of the letters a-z. *)
Fixpoint eq_ignore_case (s1 s2 : string) : bool :=
  match s1, s2 with
  | EmptyString, EmptyString => true
  | String a s1', String b s2' =>
      bool_decide (canonicalize true a = canonicalize true b)
        && eq_ignore_case s1' s2'
  | _, _ => false
  end.

Definition is_digit (ch : ascii) : bool :=
  let n := N_of_ascii ch in ((48 <=? n) && (n <=? 57))%N.

Global Arguments is_digit : simpl never.

(** One-character atoms. *)
Inductive atom : Type :=
| AChar (c : ascii)             (* a pattern character, [\.] included *)
| ADigit                        (* [\d] *)
| ANoneOf (cs : list ascii).    (* [[^...]] *)

Definition atom_matches (ignoreCase : bool) (a : atom) (ch : ascii) : bool :=
  match a with
  | AChar c => bool_decide (canonicalize ignoreCase ch = canonicalize ignoreCase c)
  | ADigit => is_digit ch
  | ANoneOf cs =>
      negb (existsb (fun c => bool_decide (canonicalize ignoreCase ch
                                            = canonicalize ignoreCase c)) cs)
  end.

Global Arguments atom_matches : simpl never.

Inductive regex : Type :=
| Eps
| Chr (a : atom)
| Seq (r1 r2 : regex)
| Plus (r : regex)              (* greedy [r+] *)
| Opt (r : regex)               (* greedy [r?] *)
| Group (n : nat) (r : regex)   (* the n-th capturing group *)
| Bol                           (* [^] *)
| Eol.                          (* [$], no [m] flag *)

(** A run of pattern characters. *)
Fixpoint lit (s : string) : regex :=
  match s with
  | EmptyString => Eps
  | String c s' => Seq (Chr (AChar c)) (lit s')
  end.

Fixpoint groups (r : regex) : nat :=
  match r with
  | Seq r1 r2 => groups r1 + groups r2
  | Plus r1 | Opt r1 => groups r1
  | Group _ r1 => S (groups r1)
  | _ => 0
  end.

Record RegExp : Type := mkRegExp { source : regex; ignoreCase : bool }.

Abbreviation captures := (gmap nat string).

(** A continuation receives the index reached, the rest of the input and
    the captures; it answers with the end index of the whole match. *)
Definition Cont : Type := nat -> string -> captures -> option (nat * captures).

Definition Matcher : Type :=
  nat -> string -> captures -> Cont -> option (nat * captures).

(** Greedy repetition, one or more times: after each round of [m] a
    further round is tried before the continuation. A round takes at
    least one character in every expression of the source, so [fuel], the
    length of the input, is never used up. *)
Fixpoint repeat_greedy (m : Matcher) (k : Cont) (fuel : nat)
    (idx : nat) (s : string) (caps : captures) {struct fuel}
    : option (nat * captures) :=
  m idx s caps (fun i s' c =>
    match fuel with
    | O => k i s' c
    | S fuel' =>
        match repeat_greedy m k fuel' i s' c with
        | Some res => Some res
        | None => k i s' c
        end
    end).

(** Backtracking matcher: alternatives are tried in the order of the
    ECMAScript semantics (a greedy quantifier tries the longer match
    first). *)
Fixpoint rmatch (ic : bool) (r : regex) (idx : nat) (s : string)
    (caps : captures) (k : Cont) {struct r} : option (nat * captures) :=
  match r with
  | Eps => k idx s caps
  | Chr a =>
      match s with
      | String ch s' => if atom_matches ic a ch then k (S idx) s' caps else None
      | EmptyString => None
      end
  | Seq r1 r2 => rmatch ic r1 idx s caps (fun i s' c => rmatch ic r2 i s' c k)
  | Opt r1 =>
      match rmatch ic r1 idx s caps k with
      | Some res => Some res
      | None => k idx s caps
      end
  | Plus r1 => repeat_greedy (rmatch ic r1) k (String.length s) idx s caps
  | Group n r1 =>
      rmatch ic r1 idx s caps (fun i s' c => k i s' (<[n := take (i - idx) s]> c))
  | Bol => if bool_decide (idx = 0) then k idx s caps else None
  | Eol => match s with EmptyString => k idx s caps | String _ _ => None end
  end.

Record MatchResult : Type :=
  mkMatch { m_index : nat; m_end : nat; m_captures : captures }.

(** The match is tried at every start index, from the left. *)
Fixpoint exec_from (re : RegExp) (idx : nat) (s : string) : option MatchResult :=
  match rmatch (ignoreCase re) (source re) idx s ∅ (fun i _ c => Some (i, c)) with
  | Some (e, c) => Some (mkMatch idx e c)
  | None =>
      match s with
      | String _ s' => exec_from re (S idx) s'
      | EmptyString => None
      end
  end.

(** [re.exec(s)] for a regular expression without [g] or [y] flag. *)
Definition exec (re : RegExp) (s : string) : option MatchResult := exec_from re 0 s.

(** [re.test(s)]. *)
Definition test (re : RegExp) (s : string) : bool := bool_decide (is_Some (exec re s)).

(** [s.match(re)]: the captures of the first match, or [null]. *)
Definition str_match (s : string) (re : RegExp) : option captures :=
  m_captures <$> exec re s.

Definition digit_val (ch : ascii) : option nat :=
  if is_digit ch then Some (N.to_nat (N_of_ascii ch) - 48) else None.

(** The capture [n] as text; a group that took no part gives the empty
    string. *)
Definition capture (caps : captures) (n : nat) : string := default "" (caps !! n).

(** GetSubstitution: the [$] patterns of a replacement text. [m] is the
    number of capturing groups, [pos] and [matched] the place and text of
    the match in [str]. There are no named groups here, so [$<] stays as
    it is. *)
Fixpoint substitution (matched str : string) (pos m : nat) (caps : captures)
    (repl : string) {struct repl} : string :=
  match repl with
  | EmptyString => EmptyString
  | String ch rest =>
      let literal := String ch (substitution matched str pos m caps rest) in
      if negb (Ascii.eqb ch "$") then literal
      else
        match rest with
        | EmptyString => literal
        | String d1 rest1 =>
            let after1 := substitution matched str pos m caps rest1 in
            if Ascii.eqb d1 "$" then String "$" after1
            else if Ascii.eqb d1 "&" then matched +:+ after1
            else if Ascii.eqb d1 "`" then take pos str +:+ after1
            else if Ascii.eqb d1 "'" then
              drop (pos + String.length matched) str +:+ after1
            else
              match digit_val d1 with
              | None => literal
              | Some n1 =>
                  let one :=
                    if bool_decide (1 <= n1 <= m)
                    then capture caps n1 +:+ after1
                    else literal in
                  match rest1 with
                  | EmptyString => one
                  | String d2 rest2 =>
                      match digit_val d2 with
                      | Some n2 =>
                          if bool_decide (1 <= 10 * n1 + n2 <= m)
                          then capture caps (10 * n1 + n2)
                                 +:+ substitution matched str pos m caps rest2
                          else one
                      | None => one
                      end
                  end
              end
        end
  end.

(** [s.replace(re, repl)] with a replacement text, no [g] flag: the first
    match is replaced, a string without match is returned as it is. *)
Definition replace (s : string) (re : RegExp) (repl : string) : string :=
  match exec re s with
  | None => s
  | Some mr =>
      let matched := take (m_end mr - m_index mr) (drop (m_index mr) s) in
      take (m_index mr) s
        +:+ substitution matched s (m_index mr) (groups (source re))
              (m_captures mr) repl
        +:+ drop (m_end mr) s
  end.

End RegExp.

(* ===================================================================== *)
(** ** Programs over the collaborators *)
(* ===================================================================== *)

Module Effects.

Definition bytes : Type := list Byte.byte.

(** What a JavaScript [throw] carries. *)
Inductive Error : Type :=
| TypeError (msg : string)      (* raised by the runtime *)
| Thrown (what : string).       (* raised by a collaborator *)

Inductive outcome (A : Type) : Type :=
| Ok (a : A)
| Raise (e : Error).

Global Arguments Ok {A} a.

Global Arguments Raise {A} e.

(** *** Types/Auth.ts *)

Record KeyPair : Type := mkKeyPair { public : bytes; private : bytes }.

Record SignedKeyPair : Type := mkSignedKeyPair {
  keyPair : KeyPair;
  signature : bytes;
  keyId : Z;
  timestampS : option Z
}.

Record ProtocolAddress : Type := mkProtocolAddress { name : string; deviceId : Z }.

Record LTHashState : Type := mkLTHashState {
  version : Z;
  hash : bytes;
  indexValueMap : gmap string bytes
}.

Record SignalCreds : Type := mkSignalCreds {
  signedIdentityKey : KeyPair;
  signedPreKey : SignedKeyPair;
  registrationId : Z
}.

(** The keys of [SignalDataTypeMap]. *)
Inductive DataKind : Type :=
| PreKey                (* 'pre-key' *)
| Session               (* 'session' *)
| SenderKey             (* 'sender-key' *)
| SenderKeyMemory       (* 'sender-key-memory' *)
| AppStateSyncKey       (* 'app-state-sync-key' *)
| AppStateSyncVersion   (* 'app-state-sync-version' *)
| LidMapping.           (* 'lid-mapping' *)

Global Instance DataKind_eq_dec : EqDecision DataKind.
Proof. solve_decision. Defined.

Definition SignalDataTypeMap (k : DataKind) : Type :=
  match k with
  | PreKey => KeyPair
  | Session => bytes
  | SenderKey => bytes
  | SenderKeyMemory => gmap string bool
  | AppStateSyncKey => bytes
  | AppStateSyncVersion => LTHashState
  | LidMapping => string
  end.

(** *** Objects of the collaborators, kept opaque: only what
    libsignal.ts does with them is visible. *)

(** libsignal's [SessionRecord], known by its serialised form. *)
Record SessionRecord : Type := SessionRecord_deserialize { SessionRecord_serialize : bytes }.

(** Modelled from the spec: [SenderKeyRecord] of WASignalGroup, which is
    not under src/. Section 3: a sender-key record is "serialized
    group-ratchet state", opaque bytes; it is known here by its serialised
    form. *)
Record SenderKeyRecord : Type := mkSenderKeyRecord { SenderKeyRecord_serialize : bytes }.

(** Modelled from the spec: [SenderKeyDistributionMessage] of
    WASignalGroup, which is not under src/. Glossary: the distribution
    payload is "the serialized bootstrap message a sender broadcasts". *)
Record SenderKeyDistributionMessage : Type :=
  mkSenderKeyDistributionMessage { SenderKeyDistributionMessage_serialize : bytes }.

(** The session bundle handed to [injectE2ESession]. *)
Record E2ESession : Type := mkE2ESession { bundle : bytes }.

(** *** Calls to the collaborators. The key store is [auth.keys]; the
    ciphers and builders are those constructed over [signalStorage(auth)]. *)
Inductive Event : Type -> Type :=
(* SignalKeyStore: keys.get(type, ids), keys.set({ type: data }) *)
| KeysGet (k : DataKind) (ids : list string)
    : Event (gmap string (SignalDataTypeMap k))
| KeysSet (k : DataKind) (data : gmap string (option (SignalDataTypeMap k)))
    : Event unit
(* libsignal.SessionCipher(storage, addr) *)
| DecryptPreKeyWhisperMessage (addr : ProtocolAddress) (ciphertext : bytes)
    : Event bytes
| DecryptWhisperMessage (addr : ProtocolAddress) (ciphertext : bytes)
    : Event bytes
| Encrypt (addr : ProtocolAddress) (data : bytes)
    : Event (Z * string)                      (* { type, body } *)
(* libsignal.SessionBuilder(storage, addr) *)
| InitOutgoing (addr : ProtocolAddress) (session : E2ESession) : Event unit
(* GroupCipher(storage, senderName) *)
| GroupDecrypt (senderName : string) (msg : bytes) : Event bytes
| GroupEncrypt (senderName : string) (data : bytes) : Event bytes
(* GroupSessionBuilder(storage) *)
| GroupCreate (senderName : string) : Event SenderKeyDistributionMessage
| GroupProcess (senderName : string) (msg : SenderKeyDistributionMessage)
    : Event unit.

(** A program either returns, throws, or calls a collaborator and goes on
    with what the call gave: a value or an exception. *)
Inductive Prog (A : Type) : Type :=
| Ret (a : A)
| Throw (e : Error)
| Vis {X : Type} (ev : Event X) (k : outcome X -> Prog A).

Global Arguments Ret {A} a.

Global Arguments Throw {A} e.

Global Arguments Vis {A X} ev k.

Fixpoint bind {A B : Type} (p : Prog A) (f : A -> Prog B) : Prog B :=
  match p with
  | Ret a => f a
  | Throw e => Throw e
  | Vis ev k => Vis ev (fun r => bind (k r) f)
  end.

(** [await ev]: an exception of the callee is rethrown. *)
Definition call {X : Type} (ev : Event X) : Prog X :=
  Vis ev (fun r => match r with Ok x => Ret x | Raise e => Throw e end).

(** [try { p } catch { h }]. *)
Fixpoint try_catch {A : Type} (p : Prog A) (h : Error -> Prog A) : Prog A :=
  match p with
  | Ret a => Ret a
  | Throw e => h e
  | Vis ev k => Vis ev (fun r => try_catch (k r) h)
  end.

(** A synchronous computation used inside a program. *)
Definition lift {A : Type} (o : outcome A) : Prog A :=
  match o with Ok a => Ret a | Raise e => Throw e end.

(** *** Runs *)

(** One call with what it gave. *)
Inductive Call : Type :=
| Called {X : Type} (ev : Event X) (r : outcome X).

(** The collaborators, as a transformer of the world [W] they live in. *)
Definition Handler (W : Type) : Type := forall X : Type, Event X -> W -> outcome X * W.

Record Run (W A : Type) : Type := mkRun {
  result : outcome A;
  world : W;
  trace : list Call
}.

Global Arguments mkRun {W A} result world trace.

Global Arguments result {W A} r.

Global Arguments world {W A} r.

Global Arguments trace {W A} r.

(** What a call gives in world [w], and the world it leaves. *)
Definition answer {W X : Type} (h : Handler W) (ev : Event X) (w : W) : outcome X :=
  fst (h X ev w).

Definition after {W X : Type} (h : Handler W) (ev : Event X) (w : W) : W :=
  snd (h X ev w).

Fixpoint run {W A : Type} (h : Handler W) (p : Prog A) (w : W) : Run W A :=
  match p with
  | Ret a => mkRun (Ok a) w []
  | Throw e => mkRun (Raise e) w []
  | Vis ev k =>
      let r := answer h ev w in
      let rest := run h (k r) (after h ev w) in
      mkRun (result rest) (world rest) (Called ev r :: trace rest)
  end.

End Effects.

Declare Scope prog_scope.

Delimit Scope prog_scope with prog.

Notation "'let*' x := p 'in' q" := (Effects.bind p (fun x => q))
  (at level 10, x name, p at level 100, q at level 200) : prog_scope.

(* ===================================================================== *)
(** ** src/Signal/libsignal.ts *)
(* ===================================================================== *)

Module Repository.
Import JSString RegExp Effects.

Local Open Scope prog_scope.

(** What [jidDecode] gives: the fields libsignal.ts reads, and the server. *)
Record FullJid : Type := mkFullJid {
  user : string;
  device : option Z;            (* number | undefined *)
  server : string
}.

(** [/@lid$/i] *)
Definition re_lid : RegExp :=
  mkRegExp (Seq (lit "@lid") Eol) true.

(** [/^([^:@]+)(:\d+)?@lid$/i] *)
Definition re_lid_bare : RegExp :=
  mkRegExp
    (Seq Bol
      (Seq (Group 1 (Plus (Chr (ANoneOf [":"; "@"]%char))))
        (Seq (Opt (Group 2 (Seq (Chr (AChar ":")) (Plus (Chr ADigit)))))
          (Seq (lit "@lid") Eol))))
    true.

(** [/^([^:@]+)(:\d+)@lid$/i] *)
Definition re_lid_device : RegExp :=
  mkRegExp
    (Seq Bol
      (Seq (Group 1 (Plus (Chr (ANoneOf [":"; "@"]%char))))
        (Seq (Group 2 (Seq (Chr (AChar ":")) (Plus (Chr ADigit))))
          (Seq (lit "@lid") Eol))))
    true.

(** [/@s\.whatsapp\.net$/i] *)
Definition re_s_whatsapp_net : RegExp :=
  mkRegExp (Seq (lit "@s.whatsapp.net") Eol) true.

(** [const bare = id.replace(/^([^:@]+)(:\d+)?@lid$/i, "$1@lid")] *)
Definition bare_of (id : string) : string := replace id re_lid_bare "$1@lid".

(** [const match = id.match(...); const device = match ? match[2] : ""] *)
Definition device_of (id : string) : string :=
  match str_match id re_lid_device with
  | Some caps => capture caps 2
  | None => ""
  end.

(** [normalizeLidToJid(id, keys)]. [keys] is the key store of the
    repository, the collaborator that answers [KeysGet]. The body of the
    [try] block gives [Some] of the value it returns, or [None] when
    control leaves the block at its end; the [catch] clause is empty.
    [device || ""] is [device], a string. *)
Definition normalizeLidToJid (id : string) : Prog string :=
  if negb (test re_lid id) then Ret id
  else
    let bare := bare_of id in
    let* returned :=
      try_catch
        (let* res := call (KeysGet LidMapping [bare]) in
         match (res : gmap string string) !! bare with
         | Some mapped =>
             if bool_decide (mapped <> "") then
               let device := device_of id in
               Ret (Some (replace mapped re_s_whatsapp_net
                            (device +:+ "@s.whatsapp.net")))
             else Ret None
         | None => Ret None
         end)
        (fun _ => Ret None) in
    match returned with
    | Some jid => Ret jid
    | None => Ret id
    end.

(** Modelled from the spec: [new SenderKeyRecord()]. Section 4.5: "if no
    sender-key record exists yet creates an empty one". *)
Definition SenderKeyRecord_new : SenderKeyRecord := mkSenderKeyRecord [].

(** [signalStorage({ creds, keys })]: the callbacks the ciphers use.
    [loadPreKey], [removePreKey] and [getOurIdentity] play no part in
    what is proved below and are left out. *)
Record SignalStorage : Type := mkSignalStorage {
  loadSession : string -> Prog (option SessionRecord);
  storeSession : string -> SessionRecord -> Prog unit;
  isTrustedIdentity : string -> bytes -> bool;
  loadSignedPreKey : KeyPair;
  loadSenderKey : string -> Prog (option SenderKeyRecord);
  storeSenderKey : string -> SenderKeyRecord -> Prog unit;
  getOurRegistrationId : Z
}.

Definition signalStorage (creds : SignalCreds) : SignalStorage := {|
  loadSession id :=
    let* norm := normalizeLidToJid id in
    let* res := call (KeysGet Session [norm]) in
    match (res : gmap string bytes) !! norm with
    | Some sess => Ret (Some (SessionRecord_deserialize sess))
    | None => Ret None
    end;
  storeSession id session :=
    let* norm := normalizeLidToJid id in
    call (KeysSet Session {[ norm := Some (SessionRecord_serialize session) ]});
  isTrustedIdentity _ _ := true;
  loadSignedPreKey :=
    let key := signedPreKey creds in
    mkKeyPair (public (keyPair key)) (private (keyPair key));
  loadSenderKey keyId :=
    let* norm := normalizeLidToJid keyId in
    let* res := call (KeysGet SenderKey [norm]) in
    match (res : gmap string bytes) !! norm with
    | Some key => Ret (Some (mkSenderKeyRecord key))
    | None => Ret None
    end;
  storeSenderKey keyId key :=
    let* norm := normalizeLidToJid keyId in
    call (KeysSet SenderKey {[ norm := Some (SenderKeyRecord_serialize key) ]});
  getOurRegistrationId := registrationId creds
|}.

Section WithCollaborators.

(** [jidDecode] of ../WABinary: [undefined] for an address it cannot
    decode. *)
Variable jidDecode : string -> option FullJid.

(** [new SenderKeyName(group, addr).toString()] of WASignalGroup. *)
Variable SenderKeyName_toString : string -> ProtocolAddress -> string.

Variable creds : SignalCreds.

(** [device || 0]: [undefined] and [0] both give [0]. *)
Definition device_or_0 (device : option Z) : Z := default 0%Z device.

(** Destructuring [undefined] raises a TypeError. *)
Definition jidToSignalProtocolAddress (jid : string) : outcome ProtocolAddress :=
  match jidDecode jid with
  | None => Raise (TypeError "Cannot destructure property 'user' of undefined")
  | Some fj => Ok (mkProtocolAddress (user fj) (device_or_0 (device fj)))
  end.

Definition jidToSignalSenderKeyName (group user : string) : outcome string :=
  match jidToSignalProtocolAddress user with
  | Ok addr => Ok (SenderKeyName_toString group addr)
  | Raise e => Raise e
  end.

Definition storage : SignalStorage := signalStorage creds.

(** [Buffer.from(body, "binary")] *)
Definition Buffer_from_binary (body : string) : bytes :=
  String.list_byte_of_string body.

(** The operations of [makeLibSignalRepository(auth)]. *)

Definition decryptGroupMessage (group authorJid : string) (msg : bytes)
    : Prog bytes :=
  let* senderName := lift (jidToSignalSenderKeyName group authorJid) in
  call (GroupDecrypt senderName msg).

Definition processSenderKeyDistributionMessage
    (groupId : string) (axolotlSenderKeyDistributionMessage : bytes)
    (authorJid : string) : Prog unit :=
  let* senderName := lift (jidToSignalSenderKeyName groupId authorJid) in
  let senderMsg :=
    mkSenderKeyDistributionMessage axolotlSenderKeyDistributionMessage in
  let* res := call (KeysGet SenderKey [senderName]) in
  let* _ :=
    match (res : gmap string bytes) !! senderName with
    | None => storeSenderKey storage senderName SenderKeyRecord_new
    | Some _ => Ret tt
    end in
  call (GroupProcess senderName senderMsg).

(** [result] is declared without a value and the [switch] has no
    [default]: [None] is the [undefined] returned for any other type. *)
Definition decryptMessage (jid type : string) (ciphertext : bytes)
    : Prog (option bytes) :=
  let* addr := lift (jidToSignalProtocolAddress jid) in
  if bool_decide (type = "pkmsg") then
    let* result := call (DecryptPreKeyWhisperMessage addr ciphertext) in
    Ret (Some result)
  else if bool_decide (type = "msg") then
    let* result := call (DecryptWhisperMessage addr ciphertext) in
    Ret (Some result)
  else Ret None.

Definition encryptMessage (jid : string) (data : bytes)
    : Prog (string * bytes) :=
  let* addr := lift (jidToSignalProtocolAddress jid) in
  let* enc := call (Encrypt addr data) in
  let '(sigType, body) := enc in
  let type := if bool_decide (sigType = 3%Z) then "pkmsg" else "msg" in
  Ret (type, Buffer_from_binary body).

Record GroupEncrypted : Type := mkGroupEncrypted {
  ciphertext : bytes;
  senderKeyDistributionMessage : bytes
}.

Definition encryptGroupMessage (group meId : string) (data : bytes)
    : Prog GroupEncrypted :=
  let* senderName := lift (jidToSignalSenderKeyName group meId) in
  let* res := call (KeysGet SenderKey [senderName]) in
  let* _ :=
    match (res : gmap string bytes) !! senderName with
    | None => storeSenderKey storage senderName SenderKeyRecord_new
    | Some _ => Ret tt
    end in
  let* skdm := call (GroupCreate senderName) in
  let* ciphertext := call (GroupEncrypt senderName data) in
  Ret (mkGroupEncrypted ciphertext (SenderKeyDistributionMessage_serialize skdm)).

Definition injectE2ESession (jid : string) (session : E2ESession) : Prog unit :=
  let* addr := lift (jidToSignalProtocolAddress jid) in
  call (InitOutgoing addr session).

End WithCollaborators.

End Repository.

(* ===================================================================== *)
(** ** Collaborators of this repository that libsignal.ts imports *)
(* ===================================================================== *)

Module SpecModel.
Import JSString Repository.

(** The text before and after the first [c] of [s]. *)
Fixpoint split_at (c : ascii) (s : string) : option (string * string) :=
  match s with
  | EmptyString => None
  | String ch s' =>
      if Ascii.eqb ch c then Some (EmptyString, s')
      else
        match split_at c s' with
        | Some (before, after_) => Some (String ch before, after_)
        | None => None
        end
  end.

(** The number written in decimal digits; nothing for any other text. *)
Fixpoint decimal_from (acc : Z) (ds : string) : option Z :=
  match ds with
  | EmptyString => Some acc
  | String ch ds' =>
      match RegExp.digit_val ch with
      | Some d => decimal_from (10 * acc + Z.of_nat d)%Z ds'
      | None => None
      end
  end.

Definition decimal (ds : string) : option Z :=
  match ds with
  | EmptyString => None
  | _ => decimal_from 0%Z ds
  end.

(** Modelled from the spec: [jidDecode] of ../WABinary, which is not
    under src/. Section 4.3: the resolver "splits a routable address into
    principal and device-index; device-index defaults to 0 if absent.
    Fails with MalformedAddress if the principal segment is empty";
    section 7: MalformedAddress is for "an address string [that] cannot
    be decoded into principal/device". libsignal.ts adds the default and
    no check of its own, so the decoder is what declines: it gives
    [undefined] for a text without [@] and for an empty principal. The
    address is the principal, an optional [:] and device index, [@] and
    the server. *)
Definition jidDecode (jid : string) : option FullJid :=
  match split_at "@" jid with
  | None => None
  | Some (userCombined, server) =>
      let '(user, device) :=
        match split_at ":" userCombined with
        | Some (user, device) => (user, decimal device)
        | None => (userCombined, None)
        end in
      if bool_decide (user = "") then None
      else Some (mkFullJid user device server)
  end.

(** The principal segment of an address: what stands before the first
    [:] or [@]. *)
Fixpoint principal (jid : string) : string :=
  match jid with
  | EmptyString => EmptyString
  | String ch jid' =>
      if Ascii.eqb ch ":" || Ascii.eqb ch "@" then EmptyString
      else String ch (principal jid')
  end.

(** Modelled from the spec: [SenderKeyName] of WASignalGroup, which is not
    under src/. Section 4.3: a "deterministic composite key combining
    groupId and the resolved ProtocolAddress of the member". The key is
    the group, the principal and the device index, set apart by [::]. *)
Definition SenderKeyName_toString (group : string) (addr : Effects.ProtocolAddress)
    : string :=
  group +:+ "::" +:+ Effects.name addr +:+ "::"
    +:+ pretty (Effects.deviceId addr).

End SpecModel.

(* ===================================================================== *)
(** ** An in-memory key store and simple collaborators *)
(* ===================================================================== *)

Module Memory.
Import JSString RegExp Effects Repository.

(** The tables of the store that libsignal.ts reads and writes; [broken]
    makes every [keys.get] and [keys.set] throw. *)
Record Store : Type := mkStore {
  lid_mapping : gmap string string;
  sessions : gmap string bytes;
  sender_keys : gmap string bytes;
  pre_keys : gmap string KeyPair;
  broken : bool
}.

Definition empty_store : Store := mkStore ∅ ∅ ∅ ∅ false.

(** [get] returns only the ids that are present. *)
Definition pick {V : Type} (table : gmap string V) (ids : list string)
    : gmap string V :=
  list_to_map (omap (fun id => (fun v => (id, v)) <$> table !! id) ids).

(** [set]: a value is written, [null] deletes. *)
Definition patch {V : Type} (data : gmap string (option V))
    (table : gmap string V) : gmap string V :=
  map_fold (fun id ov t =>
              match ov with Some v => <[id := v]> t | None => delete id t end)
           table data.

Definition table (k : DataKind) (st : Store) : gmap string (SignalDataTypeMap k) :=
  match k with
  | PreKey => pre_keys st
  | Session => sessions st
  | SenderKey => sender_keys st
  | LidMapping => lid_mapping st
  | SenderKeyMemory | AppStateSyncKey | AppStateSyncVersion => ∅
  end.

Definition set_table (k : DataKind)
    : gmap string (option (SignalDataTypeMap k)) -> Store -> Store :=
  match k with
  | PreKey => fun d st =>
      mkStore (lid_mapping st) (sessions st) (sender_keys st)
              (patch d (pre_keys st)) (broken st)
  | Session => fun d st =>
      mkStore (lid_mapping st) (patch d (sessions st)) (sender_keys st)
              (pre_keys st) (broken st)
  | SenderKey => fun d st =>
      mkStore (lid_mapping st) (sessions st) (patch d (sender_keys st))
              (pre_keys st) (broken st)
  | LidMapping => fun d st =>
      mkStore (patch d (lid_mapping st)) (sessions st) (sender_keys st)
              (pre_keys st) (broken st)
  | SenderKeyMemory | AppStateSyncKey | AppStateSyncVersion => fun _ st => st
  end.

(** Collaborators that answer every call: the ciphers hand the payload
    back, the group builder hands out the sender name. *)
Definition handler : Handler Store := fun X ev =>
  match ev in Event X return Store -> outcome X * Store with
  | KeysGet k ids => fun st =>
      if broken st then (Raise (Thrown "store unavailable"), st)
      else (Ok (pick (table k st) ids), st)
  | KeysSet k data => fun st =>
      if broken st then (Raise (Thrown "store unavailable"), st)
      else (Ok tt, set_table k data st)
  | DecryptPreKeyWhisperMessage _ ct => fun st => (Ok ct, st)
  | DecryptWhisperMessage _ ct => fun st => (Ok ct, st)
  | Encrypt _ data => fun st => (Ok (3%Z, String.string_of_list_byte data), st)
  | InitOutgoing _ _ => fun st => (Ok tt, st)
  | GroupDecrypt _ msg => fun st => (Ok msg, st)
  | GroupEncrypt _ data => fun st => (Ok data, st)
  | GroupCreate senderName => fun st =>
      (Ok (mkSenderKeyDistributionMessage (String.list_byte_of_string senderName)), st)
  | GroupProcess _ _ => fun st => (Ok tt, st)
  end.

(** The same collaborators over a store that never throws. *)
Definition reliable_handler : Handler Store := fun X ev st =>
  handler X ev (mkStore (lid_mapping st) (sessions st) (sender_keys st)
                        (pre_keys st) false).

End Memory.

(* ===================================================================== *)
(** ** Notions used in the statements and proofs *)
(* ===================================================================== *)

Module Notions.
Import JSString RegExp Effects Repository Memory.

(** The continuation of a whole match. *)
Definition k_end : Cont := fun i _ c => Some (i, c).

(** [l] is, up to case, a prefix of [s]: what follows it. *)
Fixpoint strip_prefix_ci (l s : string) : option string :=
  match l with
  | EmptyString => Some s
  | String c l' =>
      match s with
      | String ch s' =>
          if bool_decide (canonicalize true ch = canonicalize true c)
          then strip_prefix_ci l' s' else None
      | EmptyString => None
      end
  end.

Definition suffix_re (l : string) : RegExp := mkRegExp (Seq (lit l) Eol) true.

(** [test] of [l$] holds exactly for the strings that end, up to case,
    in [l]. *)
Definition ends_with_ci (l s : string) : Prop :=
  exists p sfx, s = p +:+ sfx /\ eq_ignore_case sfx l = true.

(** [rest] does not go on with a character of the atom. *)
Definition starts_outside (a : atom) (rest : string) : Prop :=
  match rest with
  | String ch _ => atom_matches true a ch = false
  | EmptyString => True
  end.

(** A character of the user part: neither [:] nor [@]. *)
Definition user_char (ch : ascii) : bool :=
  negb (Ascii.eqb ch ":") && negb (Ascii.eqb ch "@").

(** The user part of an address: a non-empty run of such characters. *)
Definition is_user (u : string) : Prop := u <> "" /\ all user_char u = true.

(** A device suffix: [:] and at least one decimal digit. *)
Definition is_device (dev : string) : Prop :=
  exists ds, dev = String ":" ds /\ ds <> "" /\ all is_digit ds = true.

(** The marker of the alternate scheme, in any letter case. *)
Definition is_lid_marker (sfx : string) : Prop := eq_ignore_case sfx "@lid" = true.

(** The marker of the canonical form, in any letter case. *)
Definition is_jid_marker (sfx : string) : Prop :=
  eq_ignore_case sfx "@s.whatsapp.net" = true.

(** The captures after the two groups. *)
Definition caps1 (u : string) : captures := <[1 := u]> ∅.

Definition caps2 (u dev : string) : captures := <[2 := dev]> (<[1 := u]> ∅).

Definition no_colon (ch : ascii) : bool := negb (Ascii.eqb ch ":").

Definition no_dollar (ch : ascii) : bool := negb (Ascii.eqb ch "$").

(** What the lookup of [bare] makes of [id]. *)
Definition normalized (id : string) (r : outcome (gmap string string)) : string :=
  match r with
  | Ok res =>
      match res !! bare_of id with
      | Some mapped =>
          if bool_decide (mapped <> "")
          then replace mapped re_s_whatsapp_net (device_of id +:+ "@s.whatsapp.net")
          else id
      | None => id
      end
  | Raise _ => id
  end.

(** A store whose only mapping sends the alternate address 123 to a
    canonical one. *)
Definition mapped_store : Store :=
  mkStore {[ "123@lid" := "555@s.whatsapp.net" ]} ∅ ∅ ∅ false.

(** A store that throws on every access. *)
Definition broken_store : Store :=
  mkStore {[ "123@lid" := "555@s.whatsapp.net" ]} ∅ ∅ ∅ true.

(** The lookup of the bare identifier of [id] fails in world [w]: the store
    throws, or it answers without a non-empty entry for the identifier. *)
Definition lookup_fails {W : Type} (h : Handler W) (w : W) (id : string) : Prop :=
  match answer h (KeysGet LidMapping [bare_of id]) w with
  | Raise _ => True
  | Ok res =>
      (res : gmap string string) !! bare_of id = None
      \/ (res : gmap string string) !! bare_of id = Some ""
  end.

(** Every call to a collaborator is answered with a value. *)
Definition answers_all {W : Type} (h : Handler W) : Prop :=
  forall (X : Type) (ev : Event X) (w : W), exists x, answer h ev w = Ok x.

End Notions.

(* ===================================================================== *)
(** ** The pre-key callbacks of [signalStorage] *)
(* ===================================================================== *)

Module PreKeys.
Import Effects Repository.

Local Open Scope prog_scope.

(** The id handed to [loadPreKey]: [number | string]. Ids of pre-keys are
    whole numbers. *)
Inductive PreKeyId : Type :=
| IdNumber (n : Z)
| IdString (s : string).

(** [id.toString()]: a whole number is written in decimal, a string is
    itself. *)
Definition PreKeyId_toString (id : PreKeyId) : string :=
  match id with
  | IdNumber n => pretty n
  | IdString s => s
  end.

(** What [loadPreKey] returns: [{ privKey, pubKey }]. *)
Record PreKeyBuffers : Type := mkPreKeyBuffers { privKey : bytes; pubKey : bytes }.

(** [loadPreKey: async (id) => ...] of [signalStorage]. *)
Definition loadPreKey (id : PreKeyId) : Prog (option PreKeyBuffers) :=
  let keyId := PreKeyId_toString id in
  let* res := call (KeysGet PreKey [keyId]) in
  match (res : gmap string KeyPair) !! keyId with
  | Some key => Ret (Some (mkPreKeyBuffers (private key) (public key)))
  | None => Ret None
  end.


End PreKeys.

(* ===================================================================== *)
(** ** Further notions *)
(* ===================================================================== *)

Module MoreNotions.
Import JSString RegExp Effects Repository Memory Notions.

(** An address of the alternate scheme in the form the expressions of
    [normalizeLidToJid] take apart: a user part, a device suffix or none,
    and the marker. *)
Definition well_formed_lid (id : string) : Prop :=
  exists u dev sfx,
    id = u +:+ dev +:+ sfx /\ is_user u /\ (dev = "" \/ is_device dev)
    /\ is_lid_marker sfx.

(** A call that reads the mapping table. *)
Definition is_mapping_lookup (c : Call) : Prop :=
  match c with
  | Called ev _ =>
      match ev with
      | KeysGet LidMapping _ => True
      | _ => False
      end
  end.

(** A call that reads the key store. *)
Definition is_store_read (c : Call) : Prop :=
  match c with
  | Called ev _ =>
      match ev with
      | KeysGet _ _ => True
      | _ => False
      end
  end.

(** Reading the mapping table leaves the world as it is. *)
Definition mapping_reads_are_pure {W : Type} (h : Handler W) : Prop :=
  forall (ids : list string) (w : W), after h (KeysGet LidMapping ids) w = w.

(** In world [w] the store honours the write of [v] under [id] in the table
    [k]: it accepts the write, the write leaves the answers of the mapping
    table as they were, and a read of [id] after it gives [v]. *)
Definition write_then_read {W : Type} (h : Handler W) (w : W) (k : DataKind)
    (id : string) (v : SignalDataTypeMap k) : Prop :=
  let ev := KeysSet k {[ id := Some v ]} in
  answer h ev w = Ok tt
  /\ (forall ids, answer h (KeysGet LidMapping ids) (after h ev w)
                  = answer h (KeysGet LidMapping ids) w)
  /\ exists res, answer h (KeysGet k [id]) (after h ev w) = Ok res
                 /\ res !! id = Some v.


End MoreNotions.

(* ===================================================================== *)
(** ** A key store that refuses writes *)
(* ===================================================================== *)

Module ReadOnlyMemory.
Import Effects Memory.

(** The collaborators of [Memory] over a store that answers reads and
    throws on every write. *)
Definition read_only_handler : Handler Store := fun X ev =>
  match ev in Event X return Store -> outcome X * Store with
  | KeysSet _ _ => fun st => (Raise (Thrown "store is read-only"), st)
  | ev' => handler _ ev'
  end.

End ReadOnlyMemory.

(* ===================================================================== *)
(** ** Facts about strings *)
(* ===================================================================== *)

Module JSStringFacts.
Import JSString.

Lemma app_nil_l s : "" +:+ s = s.
Proof. done. Qed.

Lemma app_cons a s1 s2 : String a s1 +:+ s2 = String a (s1 +:+ s2).
Proof. done. Qed.

Lemma app_nil_r s : s +:+ "" = s.
Proof. induction s as [|a s IH]; [done|]. by rewrite app_cons, IH. Qed.

Lemma app_assoc s1 s2 s3 : (s1 +:+ s2) +:+ s3 = s1 +:+ (s2 +:+ s3).
Proof. induction s1 as [|a s1 IH]; [done|]. by rewrite !app_cons, IH. Qed.

Lemma length_app s1 s2 :
  String.length (s1 +:+ s2) = String.length s1 + String.length s2.
Proof. induction s1 as [|a s1 IH]; [done|]. rewrite app_cons. simpl. by rewrite IH. Qed.

Lemma take_app s1 s2 : take (String.length s1) (s1 +:+ s2) = s1.
Proof.
  induction s1 as [|a s1 IH]; [by destruct s2|].
  rewrite app_cons. simpl. by rewrite IH.
Qed.

Lemma drop_app s1 s2 : drop (String.length s1) (s1 +:+ s2) = s2.
Proof. induction s1 as [|a s1 IH]; [done|]. rewrite app_cons. simpl. done. Qed.

Lemma take_drop n s : take n s +:+ drop n s = s.
Proof.
  revert s. induction n as [|n IH]; intros [|a s]; simpl; try done.
  by rewrite app_cons, IH.
Qed.

Lemma take_all s : take (String.length s) s = s.
Proof. induction s as [|a s IH]; simpl; [done|]. by rewrite IH. Qed.

Lemma drop_all s : drop (String.length s) s = "".
Proof. induction s as [|a s IH]; simpl; done. Qed.

Lemma length_drop n s : String.length (drop n s) = String.length s - n.
Proof. revert s. induction n as [|n IH]; intros [|a s]; simpl; auto. Qed.

Lemma all_app p s1 s2 : all p (s1 +:+ s2) = all p s1 && all p s2.
Proof.
  induction s1 as [|a s1 IH]; [done|].
  rewrite app_cons. simpl. by rewrite IH, andb_assoc.
Qed.

Lemma drop_app_add s1 s2 n : drop (String.length s1 + n) (s1 +:+ s2) = drop n s2.
Proof. induction s1 as [|a s1 IH]; [done|]. rewrite app_cons. simpl. done. Qed.

(** Two splits of one string with right parts of equal length agree. *)
Lemma app_inj_length s1 t1 s2 t2 :
  s1 +:+ t1 = s2 +:+ t2 -> String.length t1 = String.length t2 ->
  s1 = s2 /\ t1 = t2.
Proof.
  revert s2. induction s1 as [|a s1 IH]; intros [|b s2] Heq Hlen.
  - done.
  - rewrite app_nil_l, app_cons in Heq. subst t1.
    simpl in Hlen. rewrite length_app in Hlen. lia.
  - rewrite app_nil_l, app_cons in Heq. subst t2.
    simpl in Hlen. rewrite length_app in Hlen. lia.
  - rewrite !app_cons in Heq. injection Heq as -> Heq.
    destruct (IH _ Heq Hlen) as [-> ->]. done.
Qed.

End JSStringFacts.

(* ===================================================================== *)
(** ** Facts about runs *)
(* ===================================================================== *)

Module EffectsFacts.
Import Effects.

Lemma run_bind {W A B : Type} (h : Handler W) (p : Prog A) (f : A -> Prog B) w :
  run h (bind p f) w
  = match result (run h p w) with
    | Ok a =>
        let rest := run h (f a) (world (run h p w)) in
        mkRun (result rest) (world rest) (trace (run h p w) ++ trace rest)
    | Raise e => mkRun (Raise e) (world (run h p w)) (trace (run h p w))
    end.
Proof.
  revert w. induction p as [a|e|X ev k IH]; intros w; simpl.
  - by destruct (run h (f a) w).
  - done.
  - rewrite IH. by destruct (result (run h (k _) _)).
Qed.

Lemma run_call {W X : Type} (h : Handler W) (ev : Event X) w :
  run h (call ev) w = mkRun (answer h ev w) (after h ev w) [Called ev (answer h ev w)].
Proof. unfold call. simpl. by destruct (answer h ev w). Qed.

Lemma run_lift {W A : Type} (h : Handler W) (o : outcome A) w :
  run h (lift o) w = mkRun o w [].
Proof. by destruct o. Qed.

End EffectsFacts.

(* ===================================================================== *)
(** ** Facts about the matcher *)
(* ===================================================================== *)

Module RegExpFacts.
Import JSString JSStringFacts RegExp Notions.

Lemma canonicalize_colon ch :
  canonicalize true ch = ":"%char -> ch = ":"%char.
Proof. destruct ch as [[] [] [] [] [] [] [] []]; cbv; congruence. Qed.

Lemma canonicalize_at ch :
  canonicalize true ch = "@"%char -> ch = "@"%char.
Proof. destruct ch as [[] [] [] [] [] [] [] []]; cbv; congruence. Qed.

Lemma eq_ignore_case_length s1 s2 :
  eq_ignore_case s1 s2 = true -> String.length s1 = String.length s2.
Proof.
  revert s2. induction s1 as [|a s1 IH]; intros [|b s2]; simpl; try done.
  intros [_ H]%andb_true_iff. f_equal. by apply IH.
Qed.

Lemma rmatch_lit l idx s caps k :
  rmatch true (lit l) idx s caps k
  = match strip_prefix_ci l s with
    | Some rest => k (idx + String.length l) rest caps
    | None => None
    end.
Proof.
  revert idx s. induction l as [|c l IH]; intros idx s; simpl.
  - by rewrite Nat.add_0_r.
  - destruct s as [|ch s]; [done|]. unfold atom_matches.
    case_bool_decide; [|done].
    rewrite IH. by rewrite Nat.add_succ_r.
Qed.

Lemma strip_prefix_ci_app l sfx rest :
  eq_ignore_case sfx l = true -> strip_prefix_ci l (sfx +:+ rest) = Some rest.
Proof.
  revert sfx. induction l as [|c l IH]; intros [|ch sfx]; simpl; try done.
  intros [H1 H2]%andb_true_iff. rewrite H1. by apply IH.
Qed.

Lemma strip_prefix_ci_inv l s rest :
  strip_prefix_ci l s = Some rest ->
  exists sfx, s = sfx +:+ rest /\ eq_ignore_case sfx l = true.
Proof.
  revert s. induction l as [|c l IH]; intros s; simpl.
  - intros [= ->]. by exists "".
  - destruct s as [|ch s]; [done|].
    case_bool_decide as Hc; [|done].
    intros (sfx & -> & Hs)%IH. exists (String ch sfx). split; [done|].
    simpl. rewrite Hs, andb_true_r. by apply bool_decide_eq_true.
Qed.

Lemma strip_prefix_ci_all l s :
  strip_prefix_ci l s = Some "" <-> eq_ignore_case s l = true.
Proof.
  split.
  - intros (sfx & -> & H)%strip_prefix_ci_inv. by rewrite app_nil_r.
  - intros H. rewrite <- (app_nil_r s). by apply strip_prefix_ci_app.
Qed.

Lemma exec_from_eq re idx s :
  exec_from re idx s
  = match rmatch (ignoreCase re) (source re) idx s ∅ k_end with
    | Some (e, c) => Some (mkMatch idx e c)
    | None =>
        match s with
        | String _ s' => exec_from re (S idx) s'
        | EmptyString => None
        end
    end.
Proof. by destruct s. Qed.

(** *** An expression [l$], as [/@lid$/i] *)

Lemma rmatch_suffix l idx s caps :
  rmatch true (Seq (lit l) Eol) idx s caps k_end
  = if eq_ignore_case s l then Some (idx + String.length l, caps) else None.
Proof.
  simpl. rewrite rmatch_lit.
  destruct (strip_prefix_ci l s) as [rest|] eqn:Hs.
  - destruct rest as [|ch rest].
    + apply strip_prefix_ci_all in Hs. by rewrite Hs.
    + destruct (eq_ignore_case s l) eqn:He; [|done].
      apply strip_prefix_ci_all in He. congruence.
  - destruct (eq_ignore_case s l) eqn:He; [|done].
    apply strip_prefix_ci_all in He. congruence.
Qed.

Lemma exec_from_suffix_eq l idx s :
  exec_from (suffix_re l) idx s
  = if eq_ignore_case s l
    then Some (mkMatch idx (idx + String.length l) ∅)
    else match s with
         | String _ s' => exec_from (suffix_re l) (S idx) s'
         | EmptyString => None
         end.
Proof.
  rewrite exec_from_eq. unfold suffix_re. cbn [source ignoreCase].
  rewrite rmatch_suffix. by destruct (eq_ignore_case s l).
Qed.

Lemma exec_from_suffix_found l p sfx idx :
  eq_ignore_case sfx l = true ->
  exec_from (suffix_re l) idx (p +:+ sfx)
  = Some (mkMatch (idx + String.length p)
                  (idx + String.length p + String.length l) ∅).
Proof.
  intros Hs. revert idx. induction p as [|a p IH]; intros idx.
  - rewrite app_nil_l, exec_from_suffix_eq, Hs. simpl. by rewrite Nat.add_0_r.
  - rewrite exec_from_suffix_eq.
    destruct (eq_ignore_case (String a p +:+ sfx) l) eqn:He.
    + apply eq_ignore_case_length in He. apply eq_ignore_case_length in Hs.
      rewrite length_app in He. simpl in He. lia.
    + rewrite app_cons, IH. simpl. by rewrite !Nat.add_succ_r.
Qed.

Lemma exec_from_suffix_inv l idx s mr :
  exec_from (suffix_re l) idx s = Some mr ->
  exists p sfx, s = p +:+ sfx /\ eq_ignore_case sfx l = true
    /\ mr = mkMatch (idx + String.length p)
                    (idx + String.length p + String.length l) ∅.
Proof.
  revert idx. induction s as [|a s IH]; intros idx;
    rewrite exec_from_suffix_eq; destruct (eq_ignore_case _ l) eqn:He.
  - intros [= <-]. exists "", "". simpl. by rewrite Nat.add_0_r.
  - done.
  - intros [= <-]. exists "", (String a s). simpl. by rewrite Nat.add_0_r.
  - intros (p & sfx & -> & Hs & ->)%IH. exists (String a p), sfx.
    simpl. by rewrite !Nat.add_succ_r.
Qed.

Lemma test_suffix l s : test (suffix_re l) s = true <-> ends_with_ci l s.
Proof.
  unfold test, exec. rewrite bool_decide_eq_true. split.
  - intros [mr (p & sfx & ? & ? & _)%exec_from_suffix_inv]. by exists p, sfx.
  - intros (p & sfx & -> & H). rewrite (exec_from_suffix_found _ _ _ _ H). eauto.
Qed.

Lemma test_suffix_false l s : test (suffix_re l) s = false <-> ~ ends_with_ci l s.
Proof. rewrite <- test_suffix. by destruct (test _ s). Qed.

(** *** Greedy repetition of a one-character atom *)

Lemma repeat_greedy_eq m k fuel idx s caps :
  repeat_greedy m k fuel idx s caps
  = m idx s caps (fun i s' c =>
      match fuel with
      | O => k i s' c
      | S fuel' =>
          match repeat_greedy m k fuel' i s' c with
          | Some res => Some res
          | None => k i s' c
          end
      end).
Proof. by destruct fuel. Qed.

Lemma rmatch_chr ic a idx ch s caps k :
  rmatch ic (Chr a) idx (String ch s) caps k
  = if atom_matches ic a ch then k (S idx) s caps else None.
Proof. done. Qed.

Lemma repeat_chr_stop a k fuel idx rest caps :
  starts_outside a rest ->
  repeat_greedy (rmatch true (Chr a)) k fuel idx rest caps = None.
Proof.
  rewrite repeat_greedy_eq. destruct rest as [|ch rest]; [done|].
  rewrite rmatch_chr. simpl. by intros ->.
Qed.

(** The longest run is tried first: when the continuation accepts what
    follows the whole run, that is the match. *)
Lemma repeat_chr_complete a k u :
  forall fuel idx rest caps res,
    u <> "" ->
    all (atom_matches true a) u = true ->
    starts_outside a rest ->
    String.length u <= S fuel ->
    k (idx + String.length u) rest caps = Some res ->
    repeat_greedy (rmatch true (Chr a)) k fuel idx (u +:+ rest) caps = Some res.
Proof.
  induction u as [|ch u IH]; [done|].
  intros fuel idx rest caps res _ [Hch Hu]%andb_true_iff Hrest Hlen Hk.
  rewrite repeat_greedy_eq, app_cons, rmatch_chr, Hch.
  destruct u as [|ch' u].
  - rewrite app_nil_l. simpl in Hk. rewrite Nat.add_1_r in Hk.
    destruct fuel; [done|]. by rewrite repeat_chr_stop.
  - destruct fuel; [simpl in Hlen; lia|].
    rewrite (IH fuel (S idx) rest caps res); try done.
    + simpl in *. lia.
    + rewrite <- Hk. f_equal. simpl. lia.
Qed.

(** Whatever the repetition matched is a non-empty run of the atom. *)
Lemma repeat_chr_inv a k fuel :
  forall idx s caps res,
    repeat_greedy (rmatch true (Chr a)) k fuel idx s caps = Some res ->
    exists u rest,
      s = u +:+ rest /\ u <> "" /\ all (atom_matches true a) u = true
      /\ k (idx + String.length u) rest caps = Some res.
Proof.
  induction fuel as [|fuel IH]; intros idx s caps res;
    rewrite repeat_greedy_eq;
    (destruct s as [|ch s]; [done|]); rewrite rmatch_chr;
    (destruct (atom_matches true a ch) eqn:Hch; [|done]).
  - intros Hk. exists (String ch ""), s. simpl.
    rewrite Hch, Nat.add_1_r. done.
  - destruct (repeat_greedy _ k fuel (S idx) s caps) as [res'|] eqn:Hr.
    + intros [= <-].
      apply IH in Hr as (u & rest & -> & Hu & Hall & Hk).
      exists (String ch u), rest. simpl. rewrite Hch, Hall.
      rewrite Nat.add_succ_r. done.
    + intros Hk. exists (String ch ""), s. simpl.
      rewrite Hch, Nat.add_1_r. done.
Qed.

Lemma rmatch_seq ic r1 r2 idx s caps k :
  rmatch ic (Seq r1 r2) idx s caps k
  = rmatch ic r1 idx s caps (fun i s' c => rmatch ic r2 i s' c k).
Proof. done. Qed.

Lemma rmatch_group ic n r idx s caps k :
  rmatch ic (Group n r) idx s caps k
  = rmatch ic r idx s caps (fun i s' c => k i s' (<[n := take (i - idx) s]> c)).
Proof. done. Qed.

Lemma rmatch_plus ic r idx s caps k :
  rmatch ic (Plus r) idx s caps k
  = repeat_greedy (rmatch ic r) k (String.length s) idx s caps.
Proof. done. Qed.

Lemma rmatch_opt ic r idx s caps k :
  rmatch ic (Opt r) idx s caps k
  = match rmatch ic r idx s caps k with
    | Some res => Some res
    | None => k idx s caps
    end.
Proof. done. Qed.

Lemma rmatch_bol ic idx s caps k :
  rmatch ic Bol idx s caps k = if bool_decide (idx = 0) then k idx s caps else None.
Proof. done. Qed.

(** An expression that begins with [^] matches at index 0 or nowhere. *)
Lemma exec_from_anchored_later ic r idx s :
  exec_from (mkRegExp (Seq Bol r) ic) (S idx) s = None.
Proof.
  revert idx. induction s as [|ch s IH]; intros idx;
    rewrite exec_from_eq; cbn [source ignoreCase];
    rewrite rmatch_seq, rmatch_bol; simpl; [done|]. apply IH.
Qed.

Lemma exec_anchored ic r s :
  exec (mkRegExp (Seq Bol r) ic) s
  = match rmatch ic r 0 s ∅ k_end with
    | Some (e, c) => Some (mkMatch 0 e c)
    | None => None
    end.
Proof.
  unfold exec. rewrite exec_from_eq. cbn [source ignoreCase].
  rewrite rmatch_seq, rmatch_bol. simpl.
  destruct (rmatch ic r 0 s ∅ _) as [[e c]|]; [done|].
  destruct s as [|ch s]; [done|]. apply exec_from_anchored_later.
Qed.

(** A replacement text without [$] stands for itself. *)
Lemma substitution_plain matched str pos m caps repl :
  all (fun ch => negb (Ascii.eqb ch "$")) repl = true ->
  substitution matched str pos m caps repl = repl.
Proof.
  induction repl as [|ch repl IH]; simpl; [done|].
  intros [Hch Hrepl]%andb_true_iff. rewrite Hch. by rewrite IH.
Qed.

End RegExpFacts.

(* ===================================================================== *)
(** ** The expressions of [normalizeLidToJid] on addresses *)
(* ===================================================================== *)

Module AddressFacts.
Import JSString JSStringFacts RegExp RegExpFacts Effects EffectsFacts Repository Notions.

Lemma user_char_atom ch :
  atom_matches true (ANoneOf [":"; "@"]%char) ch = user_char ch.
Proof. destruct ch as [[] [] [] [] [] [] [] []]; reflexivity. Qed.

Lemma colon_atom ch :
  atom_matches true (AChar ":") ch = Ascii.eqb ch ":".
Proof. destruct ch as [[] [] [] [] [] [] [] []]; reflexivity. Qed.

Lemma all_ext p q s : (forall ch, p ch = q ch) -> all p s = all q s.
Proof. intros H. induction s as [|ch s IH]; simpl; [done|]. by rewrite H, IH. Qed.

Lemma lid_marker_shape sfx :
  is_lid_marker sfx ->
  exists rest, sfx = String "@" rest /\ String.length rest = 3
    /\ all (fun ch => negb (Ascii.eqb ch ":")) rest = true.
Proof.
  unfold is_lid_marker.
  destruct sfx as [|c0 [|c1 [|c2 [|c3 [|c4 sfx]]]]]; simpl; try done;
    rewrite ?andb_false_r; try done.
  rewrite !andb_true_iff, !bool_decide_eq_true.
  intros (H0 & H1 & H2 & H3 & _).
  apply canonicalize_at in H0 as ->. exists (String c1 (String c2 (String c3 ""))).
  repeat split. simpl. rewrite !andb_true_iff. repeat split.
  - destruct (Ascii.eqb_spec c1 ":") as [->|]; [by vm_compute in H1|done].
  - destruct (Ascii.eqb_spec c2 ":") as [->|]; [by vm_compute in H2|done].
  - destruct (Ascii.eqb_spec c3 ":") as [->|]; [by vm_compute in H3|done].
Qed.

Lemma lid_marker_starts_outside a sfx :
  is_lid_marker sfx -> atom_matches true a "@" = false -> starts_outside a sfx.
Proof. intros (rest & -> & _)%lid_marker_shape H. done. Qed.

(** The tail [@lid$] on the marker. *)
Lemma rmatch_marker idx sfx caps :
  is_lid_marker sfx ->
  rmatch true (Seq (lit "@lid") Eol) idx sfx caps k_end = Some (idx + 4, caps).
Proof. intros H. rewrite rmatch_suffix, H. done. Qed.

(** The group [(:\d+)] on a device suffix followed by the marker. *)
Lemma rmatch_device_group idx ds sfx caps :
  ds <> "" -> all is_digit ds = true -> is_lid_marker sfx ->
  rmatch true (Group 2 (Seq (Chr (AChar ":")) (Plus (Chr ADigit)))) idx
    (String ":" ds +:+ sfx) caps
    (fun i s' c => rmatch true (Seq (lit "@lid") Eol) i s' c k_end)
  = Some (idx + String.length (String ":" ds) + 4, <[2 := String ":" ds]> caps).
Proof.
  intros Hne Hds Hsfx.
  rewrite rmatch_group, rmatch_seq, app_cons, rmatch_chr, colon_atom.
  rewrite Ascii.eqb_refl, rmatch_plus. apply repeat_chr_complete; try done.
  - by apply lid_marker_starts_outside.
  - rewrite length_app. lia.
  - replace (S idx + String.length ds - idx) with (String.length (String ":" ds))
      by (simpl; lia).
    rewrite <- app_cons, take_app, rmatch_marker by done.
    cbn [String.length]. do 2 f_equal. lia.
Qed.

Lemma exec_lid_bare_plain u sfx :
  is_user u -> is_lid_marker sfx ->
  exec re_lid_bare (u +:+ sfx)
  = Some (mkMatch 0 (String.length (u +:+ sfx)) (caps1 u)).
Proof.
  intros [Hne Hu] Hsfx. unfold re_lid_bare. rewrite exec_anchored.
  rewrite rmatch_seq, rmatch_group, rmatch_plus.
  rewrite (repeat_chr_complete _ _ u _ _ _ _ (String.length (u +:+ sfx), caps1 u));
    [done|done| | | |].
  - by rewrite (all_ext _ _ _ user_char_atom).
  - by apply lid_marker_starts_outside.
  - rewrite length_app. lia.
  - cbv beta. rewrite Nat.add_0_l, Nat.sub_0_r, take_app.
    rewrite rmatch_seq, rmatch_opt.
    destruct (lid_marker_shape _ Hsfx) as (rest & Hshape & Hlen & _).
    rewrite Hshape at 1.
    rewrite rmatch_group, rmatch_seq, rmatch_chr, colon_atom.
    change (Ascii.eqb "@" ":") with false. cbv iota.
    rewrite rmatch_marker by done. unfold caps1.
    rewrite length_app, Hshape. simpl. rewrite Hlen. done.
Qed.

Lemma exec_lid_bare_device u dev sfx :
  is_user u -> is_device dev -> is_lid_marker sfx ->
  exec re_lid_bare (u +:+ dev +:+ sfx)
  = Some (mkMatch 0 (String.length (u +:+ dev +:+ sfx)) (caps2 u dev)).
Proof.
  intros [Hne Hu] (ds & -> & Hdne & Hds) Hsfx. unfold re_lid_bare.
  rewrite exec_anchored.
  rewrite rmatch_seq, rmatch_group, rmatch_plus.
  rewrite (repeat_chr_complete _ _ u _ _ _ _
             (String.length (u +:+ String ":" ds +:+ sfx), caps2 u (String ":" ds)));
    [done|done| | | |].
  - by rewrite (all_ext _ _ _ user_char_atom).
  - by rewrite app_cons.
  - rewrite length_app. lia.
  - cbv beta. rewrite Nat.add_0_l, Nat.sub_0_r, take_app.
    rewrite rmatch_seq, rmatch_opt, rmatch_device_group by done.
    unfold caps2. rewrite !length_app.
    pose proof (eq_ignore_case_length _ _ Hsfx) as ->. simpl.
    do 2 f_equal. lia.
Qed.

Lemma exec_lid_device_device u dev sfx :
  is_user u -> is_device dev -> is_lid_marker sfx ->
  exec re_lid_device (u +:+ dev +:+ sfx)
  = Some (mkMatch 0 (String.length (u +:+ dev +:+ sfx)) (caps2 u dev)).
Proof.
  intros [Hne Hu] (ds & -> & Hdne & Hds) Hsfx. unfold re_lid_device.
  rewrite exec_anchored.
  rewrite rmatch_seq, rmatch_group, rmatch_plus.
  rewrite (repeat_chr_complete _ _ u _ _ _ _
             (String.length (u +:+ String ":" ds +:+ sfx), caps2 u (String ":" ds)));
    [done|done| | | |].
  - by rewrite (all_ext _ _ _ user_char_atom).
  - by rewrite app_cons.
  - rewrite length_app. lia.
  - cbv beta. rewrite Nat.add_0_l, Nat.sub_0_r, take_app.
    rewrite rmatch_seq, rmatch_device_group by done.
    unfold caps2. rewrite !length_app.
    pose proof (eq_ignore_case_length _ _ Hsfx) as ->. simpl.
    do 2 f_equal. lia.
Qed.

Lemma rmatch_chr_nil ic a idx caps k : rmatch ic (Chr a) idx "" caps k = None.
Proof. done. Qed.

(** Whatever [/^([^:@]+)(:\d+)@lid$/i] matches is a user part, a device
    suffix and the marker; the second group is the device suffix. *)
Lemma exec_lid_device_inv id mr :
  exec re_lid_device id = Some mr ->
  exists u dev sfx,
    id = u +:+ dev +:+ sfx /\ is_user u /\ is_device dev /\ is_lid_marker sfx
    /\ m_captures mr = caps2 u dev.
Proof.
  unfold re_lid_device. rewrite exec_anchored.
  destruct (rmatch _ _ _ _ _ _) as [[e c]|] eqn:H; [|done]. intros [= <-].
  rewrite rmatch_seq, rmatch_group, rmatch_plus in H.
  apply repeat_chr_inv in H as (u & rest & -> & Hne & Hu & Hk). cbv beta in Hk.
  rewrite Nat.add_0_l, Nat.sub_0_r, take_app in Hk.
  rewrite rmatch_seq, rmatch_group, rmatch_seq in Hk.
  destruct rest as [|ch rest]; [by rewrite rmatch_chr_nil in Hk|].
  rewrite rmatch_chr, colon_atom in Hk.
  destruct (Ascii.eqb_spec ch ":") as [->|]; [|done].
  rewrite rmatch_plus in Hk.
  apply repeat_chr_inv in Hk as (ds & sfx & -> & Hdne & Hds & Hk). cbv beta in Hk.
  rewrite rmatch_suffix in Hk.
  destruct (eq_ignore_case sfx "@lid") eqn:Hsfx; [|done].
  injection Hk as _ <-.
  exists u, (String ":" ds), sfx. repeat split; try done.
  - by rewrite <- (all_ext _ _ _ user_char_atom).
  - by exists ds.
  - cbn [m_captures]. unfold caps2.
    replace (S (String.length u + String.length ds) - String.length u)
      with (String.length (String ":" ds)) by (simpl; lia).
    by rewrite <- app_cons, take_app.
Qed.

Lemma user_char_no_colon ch : user_char ch = true -> no_colon ch = true.
Proof. unfold user_char, no_colon. by intros [? _]%andb_true_iff. Qed.

Lemma all_impl (p q : ascii -> bool) s :
  (forall ch, p ch = true -> q ch = true) -> all p s = true -> all q s = true.
Proof.
  intros H. induction s as [|ch s IH]; simpl; [done|].
  intros [? ?]%andb_true_iff. rewrite H, IH; done.
Qed.

(** *** [bare_of] and [device_of] on an address [user[:device]@lid] *)

Lemma device_of_plain u sfx :
  is_user u -> is_lid_marker sfx -> device_of (u +:+ sfx) = "".
Proof.
  intros [_ Hu] Hsfx. unfold device_of, str_match.
  destruct (exec re_lid_device (u +:+ sfx)) as [mr|] eqn:H; [|done]. exfalso.
  apply exec_lid_device_inv in H as (u' & dev & sfx' & Heq & _ & (ds & -> & _) & _).
  assert (all no_colon (u +:+ sfx) = true) as Hall.
  { rewrite all_app. apply andb_true_iff. split.
    - apply (all_impl user_char); [apply user_char_no_colon|done].
    - destruct (lid_marker_shape _ Hsfx) as (rest & -> & _ & Hrest). done. }
  rewrite Heq, all_app, app_cons in Hall. simpl in Hall.
  by rewrite andb_false_r in Hall.
Qed.

Lemma capture_caps2_1 u dev : capture (caps2 u dev) 1 = u.
Proof. unfold capture, caps2. by rewrite lookup_insert_ne, lookup_insert_eq. Qed.

Lemma capture_caps2_2 u dev : capture (caps2 u dev) 2 = dev.
Proof. unfold capture, caps2. by rewrite lookup_insert_eq. Qed.

Lemma capture_caps1_1 u : capture (caps1 u) 1 = u.
Proof. unfold capture, caps1. by rewrite lookup_insert_eq. Qed.

Lemma device_of_device u dev sfx :
  is_user u -> is_device dev -> is_lid_marker sfx ->
  device_of (u +:+ dev +:+ sfx) = dev.
Proof.
  intros Hu Hdev Hsfx. unfold device_of, str_match.
  rewrite exec_lid_device_device by done. simpl. apply capture_caps2_2.
Qed.

Lemma substitution_bare matched str pos caps :
  substitution matched str pos (groups (source re_lid_bare)) caps "$1@lid"
  = capture caps 1 +:+ "@lid".
Proof. reflexivity. Qed.

Lemma bare_of_plain u sfx :
  is_user u -> is_lid_marker sfx -> bare_of (u +:+ sfx) = u +:+ "@lid".
Proof.
  intros Hu Hsfx. unfold bare_of, replace.
  rewrite exec_lid_bare_plain by done. cbn [m_index m_end m_captures].
  rewrite substitution_bare, capture_caps1_1, drop_all, app_nil_r. done.
Qed.

Lemma bare_of_device u dev sfx :
  is_user u -> is_device dev -> is_lid_marker sfx ->
  bare_of (u +:+ dev +:+ sfx) = u +:+ "@lid".
Proof.
  intros Hu Hdev Hsfx. unfold bare_of, replace.
  rewrite exec_lid_bare_device by done. cbn [m_index m_end m_captures].
  rewrite substitution_bare, capture_caps2_1, drop_all, app_nil_r. done.
Qed.

(** [device_of] gives nothing or a device suffix, for every address. *)
Lemma device_of_shape id : device_of id = "" \/ is_device (device_of id).
Proof.
  unfold device_of, str_match.
  destruct (exec re_lid_device id) as [mr|] eqn:H; [|by left]. right.
  apply exec_lid_device_inv in H as (u & dev & sfx & _ & _ & Hdev & _ & Hcaps).
  simpl. by rewrite Hcaps, capture_caps2_2.
Qed.

(** *** The replacement in the mapped address *)

Lemma is_digit_no_dollar ch : is_digit ch = true -> no_dollar ch = true.
Proof. destruct ch as [[] [] [] [] [] [] [] []]; cbv; congruence. Qed.

Lemma device_plain dev :
  dev = "" \/ is_device dev -> all no_dollar (dev +:+ "@s.whatsapp.net") = true.
Proof.
  intros [->|(ds & -> & _ & Hds)]; [done|].
  rewrite all_app. apply andb_true_iff. split; [|done].
  simpl. apply (all_impl is_digit); [apply is_digit_no_dollar|done].
Qed.

Lemma replace_jid_marker p sfx dev :
  is_jid_marker sfx -> dev = "" \/ is_device dev ->
  replace (p +:+ sfx) re_s_whatsapp_net (dev +:+ "@s.whatsapp.net")
  = p +:+ dev +:+ "@s.whatsapp.net".
Proof.
  intros Hsfx Hdev. unfold replace, exec.
  change re_s_whatsapp_net with (suffix_re "@s.whatsapp.net").
  rewrite exec_from_suffix_found by done. cbn [m_index m_end m_captures].
  rewrite !Nat.add_0_l, take_app.
  rewrite substitution_plain by (by apply device_plain).
  rewrite drop_app_add.
  rewrite <- (eq_ignore_case_length _ _ Hsfx), drop_all, app_nil_r. done.
Qed.

Lemma exec_suffix_none l s : ~ ends_with_ci l s -> exec (suffix_re l) s = None.
Proof.
  intros H%test_suffix_false. unfold test in H.
  apply bool_decide_eq_false in H.
  destruct (exec (suffix_re l) s); [|done]. destruct H. eauto.
Qed.

Lemma replace_no_jid_marker c repl :
  ~ ends_with_ci "@s.whatsapp.net" c -> replace c re_s_whatsapp_net repl = c.
Proof.
  intros H. unfold replace.
  change re_s_whatsapp_net with (suffix_re "@s.whatsapp.net").
  by rewrite exec_suffix_none.
Qed.

(** An address rewritten to end in [@s.whatsapp.net] does not end in the
    marker of the alternate scheme. *)
Lemma jid_not_lid p : ~ ends_with_ci "@lid" (p +:+ "@s.whatsapp.net").
Proof.
  intros (q & sfx & Heq & Hsfx).
  change "@s.whatsapp.net" with ("@s.whatsapp" +:+ ".net") in Heq.
  rewrite <- app_assoc in Heq.
  apply app_inj_length in Heq as [_ <-];
    [done|by rewrite (eq_ignore_case_length _ _ Hsfx)].
Qed.

(** The address put together from a mapped value that is not itself in
    the alternate scheme is not in the alternate scheme. *)
Lemma attach_not_lid c dev :
  ~ ends_with_ci "@lid" c -> dev = "" \/ is_device dev ->
  test re_lid (replace c re_s_whatsapp_net (dev +:+ "@s.whatsapp.net")) = false.
Proof.
  intros Hc Hdev. change re_lid with (suffix_re "@lid"). apply test_suffix_false.
  destruct (test (suffix_re "@s.whatsapp.net") c) eqn:Ht.
  - apply test_suffix in Ht as (p & sfx & -> & Hsfx).
    rewrite replace_jid_marker by done. rewrite <- app_assoc. apply jid_not_lid.
  - apply test_suffix_false in Ht. by rewrite replace_no_jid_marker.
Qed.

(** *** Runs of [normalizeLidToJid] *)

Lemma run_normalize_plain {W : Type} (h : Handler W) w id :
  test re_lid id = false ->
  run h (normalizeLidToJid id) w = mkRun (Ok id) w [].
Proof. intros H. unfold normalizeLidToJid. by rewrite H. Qed.

Lemma run_normalize_lid {W : Type} (h : Handler W) w id :
  test re_lid id = true ->
  let ev := KeysGet LidMapping [bare_of id] in
  run h (normalizeLidToJid id) w
  = mkRun (Ok (normalized id (answer h ev w))) (after h ev w)
          [Called ev (answer h ev w)].
Proof.
  intros H. unfold normalizeLidToJid. rewrite H. simpl.
  destruct (answer h _ w) as [res|e]; simpl; [|done].
  destruct (res !! bare_of id) as [mapped|]; simpl; [|done].
  by case_bool_decide.
Qed.

(** [normalizeLidToJid] returns on every run. *)
Lemma run_normalize_ok {W : Type} (h : Handler W) w id :
  exists norm, result (run h (normalizeLidToJid id) w) = Ok norm.
Proof.
  destruct (test re_lid id) eqn:H.
  - rewrite run_normalize_lid by done. simpl. eauto.
  - rewrite run_normalize_plain by done. simpl. eauto.
Qed.

End AddressFacts.

(* ===================================================================== *)
(** ** The claims *)
(* ===================================================================== *)

Import JSString JSStringFacts RegExp RegExpFacts Effects EffectsFacts Repository
  AddressFacts Memory Notions.

(** C5. An address that does not end in the marker [@lid] (in any letter
    case) is returned as it is, and no collaborator is called: the run
    leaves the world unchanged and its trace is empty. *)
Theorem normalize_canonical_unchanged :
  forall (id : string),
    ~ ends_with_ci "@lid" id ->
    normalizeLidToJid id = Ret id
    /\ forall (W : Type) (h : Handler W) (w : W),
         run h (normalizeLidToJid id) w = mkRun (Ok id) w [].
Proof.
  intros id H%test_suffix_false. change (suffix_re "@lid") with re_lid in H.
  split.
  - unfold normalizeLidToJid. by rewrite H.
  - intros W h w. by apply run_normalize_plain.
Qed.

Lemma normalize_canonical_unchanged_witness :
  normalizeLidToJid "555:2@s.whatsapp.net" = Ret "555:2@s.whatsapp.net"
  /\ forall (W : Type) (h : Handler W) (w : W),
       run h (normalizeLidToJid "555:2@s.whatsapp.net") w
       = mkRun (Ok "555:2@s.whatsapp.net") w [].
Proof.
  apply (normalize_canonical_unchanged "555:2@s.whatsapp.net").
  apply test_suffix_false. vm_compute. reflexivity.
Defined.

(** C3. When the lookup of the mapping fails, by an exception of the store
    or for want of an entry, [normalizeLidToJid] returns the address it was
    given; and on every run, whatever the store does, it returns a value
    and raises nothing. *)
Theorem normalize_lookup_failure_returns_original :
  forall (W : Type) (h : Handler W) (w : W) (id : string),
    lookup_fails h w id ->
    result (run h (normalizeLidToJid id) w) = Ok id
    /\ forall (w' : W) (id' : string),
         exists norm, result (run h (normalizeLidToJid id') w') = Ok norm.
Proof.
  intros W h w id Hfail. split; [|intros w' id'; apply run_normalize_ok].
  destruct (test re_lid id) eqn:Hlid.
  - rewrite run_normalize_lid by done. cbv zeta. cbn [result]. f_equal.
    unfold lookup_fails in Hfail. unfold normalized.
    destruct (answer h (KeysGet LidMapping [bare_of id]) w) as [res|e]; [|done].
    destruct Hfail as [Hres | Hres]; rewrite Hres; [done|].
    by rewrite bool_decide_eq_false_2 by auto.
  - by rewrite run_normalize_plain.
Qed.

Lemma normalize_lookup_failure_returns_original_witness :
  result (run handler (normalizeLidToJid "123:4@lid") broken_store) = Ok "123:4@lid"
  /\ forall (w' : Store) (id' : string),
       exists norm, result (run handler (normalizeLidToJid id') w') = Ok norm.
Proof.
  apply (normalize_lookup_failure_returns_original Store handler broken_store "123:4@lid").
  vm_compute. exact I.
Defined.

(** C9. The trust check of the storage accepts every identity for every
    address. *)
Theorem isTrustedIdentity_always_true :
  forall (creds : SignalCreds) (identifier : string) (identityKey : bytes),
    isTrustedIdentity (signalStorage creds) identifier identityKey = true.
Proof. reflexivity. Qed.

(** C7. The sender-key name is a function of the group and the member
    address alone: equal inputs give the same key (or the same failure of
    the resolver), in whatever world the call is made, and the call reaches
    no collaborator. *)
Theorem senderKeyName_deterministic :
  forall (jidDecode : string -> option FullJid)
         (SenderKeyName_toString : string -> ProtocolAddress -> string)
         (group1 user1 group2 user2 : string)
         (W1 W2 : Type) (h1 : Handler W1) (h2 : Handler W2) (w1 : W1) (w2 : W2),
    group1 = group2 -> user1 = user2 ->
    let name1 := jidToSignalSenderKeyName jidDecode SenderKeyName_toString group1 user1 in
    let name2 := jidToSignalSenderKeyName jidDecode SenderKeyName_toString group2 user2 in
    name1 = name2
    /\ result (run h1 (lift name1) w1) = result (run h2 (lift name2) w2)
    /\ trace (run h1 (lift name1) w1) = [].
Proof.
  intros jidDecode toString group1 user1 group2 user2 W1 W2 h1 h2 w1 w2 -> ->.
  cbv zeta. rewrite !run_lift. done.
Qed.

Lemma senderKeyName_deterministic_witness :
  let name :=
    jidToSignalSenderKeyName SpecModel.jidDecode SpecModel.SenderKeyName_toString
      "120363@g.us" "555:2@s.whatsapp.net" in
  name = name
  /\ result (run handler (lift name) mapped_store)
     = result (run handler (lift name) broken_store)
  /\ trace (run handler (lift name) mapped_store) = [].
Proof.
  apply (senderKeyName_deterministic SpecModel.jidDecode SpecModel.SenderKeyName_toString
           "120363@g.us" "555:2@s.whatsapp.net" "120363@g.us" "555:2@s.whatsapp.net"
           Store Store handler handler mapped_store broken_store);
    reflexivity.
Defined.

(** C10. For a message type other than "pkmsg" and "msg" neither decoder
    is called: the run has an empty trace and leaves the world as it was.
    [decryptMessage] then returns [undefined]; the one exception it can
    raise is that of the address resolver, which runs before the type is
    looked at. *)
Theorem decryptMessage_unknown_type :
  forall (jidDecode : string -> option FullJid) (W : Type) (h : Handler W) (w : W)
         (jid type : string) (ciphertext : bytes),
    type <> "pkmsg" -> type <> "msg" ->
    let r := run h (decryptMessage jidDecode jid type ciphertext) w in
    trace r = [] /\ world r = w
    /\ result r = match jidToSignalProtocolAddress jidDecode jid with
                  | Ok _ => Ok None
                  | Raise e => Raise e
                  end.
Proof.
  intros jidDecode W h w jid type ciphertext Hpk Hmsg. cbv zeta.
  unfold decryptMessage. rewrite run_bind, run_lift. simpl.
  destruct (jidToSignalProtocolAddress jidDecode jid) as [addr|e]; [|done].
  by rewrite !bool_decide_eq_false_2.
Qed.

Lemma decryptMessage_unknown_type_witness :
  let r := run handler (decryptMessage SpecModel.jidDecode "555:2@s.whatsapp.net"
                          "skmsg" []) mapped_store in
  trace r = [] /\ world r = mapped_store /\ result r = Ok None.
Proof.
  apply (decryptMessage_unknown_type SpecModel.jidDecode Store handler mapped_store
           "555:2@s.whatsapp.net" "skmsg" []); vm_compute; discriminate.
Defined.

(** Whatever the decoder, an address it cannot decode makes the resolver
    fail with the TypeError of destructuring [undefined]. *)
Lemma resolver_undecodable (jidDecode : string -> option FullJid) (jid : string) :
  jidDecode jid = None ->
  jidToSignalProtocolAddress jidDecode jid
  = Raise (TypeError "Cannot destructure property 'user' of undefined").
Proof. intros H. unfold jidToSignalProtocolAddress. by rewrite H. Qed.

(** The resolver adds no check of its own: what the decoder gives is the
    address, with [0] for a missing device. *)
Lemma resolver_decoded (jidDecode : string -> option FullJid) (jid : string) fj :
  jidDecode jid = Some fj ->
  jidToSignalProtocolAddress jidDecode jid
  = Ok (mkProtocolAddress (user fj) (default 0%Z (device fj))).
Proof. intros H. unfold jidToSignalProtocolAddress. by rewrite H. Qed.

Lemma jidDecode_no_principal (jid : string) :
  SpecModel.split_at "@" jid = None \/ SpecModel.principal jid = "" ->
  SpecModel.jidDecode jid = None.
Proof.
  unfold SpecModel.jidDecode. intros [->|H]; [done|].
  destruct jid as [|ch jid]; [done|]. simpl in H. simpl.
  destruct (Ascii.eqb_spec ch "@") as [->|Hat].
  - done.
  - destruct (Ascii.eqb_spec ch ":") as [->|Hcolon]; [|done].
    destruct (SpecModel.split_at "@" jid) as [[before after_]|]; [|done].
    done.
Qed.

(** C6. An address without [@] (it cannot be decoded) or with an empty
    principal segment makes the resolver fail: it raises the TypeError of
    destructuring [undefined], which is the spec's MalformedAddress. The
    resolver is a function of the address alone: lifted into a run it
    calls no collaborator and leaves the world as it was. *)
Theorem resolver_fails_on_malformed_address :
  forall (jid : string),
    SpecModel.split_at "@" jid = None \/ SpecModel.principal jid = "" ->
    exists msg,
      jidToSignalProtocolAddress SpecModel.jidDecode jid = Raise (TypeError msg)
      /\ forall (W : Type) (h : Handler W) (w : W),
           run h (lift (jidToSignalProtocolAddress SpecModel.jidDecode jid)) w
           = mkRun (Raise (TypeError msg)) w [].
Proof.
  intros jid H%jidDecode_no_principal. eexists. split.
  - by apply resolver_undecodable.
  - intros W h w. rewrite run_lift. by rewrite resolver_undecodable.
Qed.

Lemma resolver_fails_on_malformed_address_witness :
  exists msg,
    jidToSignalProtocolAddress SpecModel.jidDecode ":7@s.whatsapp.net"
    = Raise (TypeError msg)
    /\ forall (W : Type) (h : Handler W) (w : W),
         run h (lift (jidToSignalProtocolAddress SpecModel.jidDecode ":7@s.whatsapp.net")) w
         = mkRun (Raise (TypeError msg)) w [].
Proof.
  apply (resolver_fails_on_malformed_address ":7@s.whatsapp.net").
  right. reflexivity.
Defined.

(** C2, as the code has it. For every address that ends in the marker
    [@lid] and whose bare identifier has a non-empty entry [c] in the
    mapping: when [c] ends in [@s.whatsapp.net] (in any letter case), the
    result is [c] with the device suffix of the address put in before that
    ending, which is written in lower case; when [c] does not end so, the
    result is [c] as it is. For an address [user[:device]@lid] the bare
    identifier is [user@lid] and the device suffix is [:device], or empty
    when the address has none. *)
Theorem normalize_mapped_address :
  forall (W : Type) (h : Handler W) (w : W) (a c : string)
         (res : gmap string string),
    ends_with_ci "@lid" a ->
    answer h (KeysGet LidMapping [bare_of a]) w = Ok res ->
    res !! bare_of a = Some c -> c <> "" ->
    let r := result (run h (normalizeLidToJid a) w) in
    (forall p sfx', c = p +:+ sfx' -> is_jid_marker sfx' ->
                    r = Ok (p +:+ device_of a +:+ "@s.whatsapp.net"))
    /\ (~ ends_with_ci "@s.whatsapp.net" c -> r = Ok c)
    /\ (forall u dev sfx,
          a = u +:+ dev +:+ sfx ->
          is_user u -> dev = "" \/ is_device dev -> is_lid_marker sfx ->
          bare_of a = u +:+ "@lid" /\ device_of a = dev).
Proof.
  intros W h w a c res Hlid%test_suffix Hans Hres Hc. cbv zeta.
  change (suffix_re "@lid") with re_lid in Hlid.
  rewrite run_normalize_lid by done. cbv zeta. cbn [result].
  rewrite Hans. unfold normalized. rewrite Hres.
  rewrite bool_decide_eq_true_2 by done. split; [|split].
  - intros p sfx' -> Hjid.
    by rewrite replace_jid_marker by (done || apply device_of_shape).
  - intros Hno. by rewrite replace_no_jid_marker.
  - intros u dev sfx -> Hu [->|Hdev] Hsfx.
    + rewrite app_nil_l. split; [by apply bare_of_plain|by apply device_of_plain].
    + split; [by apply bare_of_device|by apply device_of_device].
Qed.

Lemma normalize_mapped_address_witness :
  let a := "123:4@LID" in
  let r := result (run handler (normalizeLidToJid a) mapped_store) in
  (forall p sfx', "555@s.whatsapp.net" = p +:+ sfx' -> is_jid_marker sfx' ->
                  r = Ok (p +:+ device_of a +:+ "@s.whatsapp.net"))
  /\ (~ ends_with_ci "@s.whatsapp.net" "555@s.whatsapp.net"
      -> r = Ok "555@s.whatsapp.net")
  /\ (forall u dev sfx,
        a = u +:+ dev +:+ sfx ->
        is_user u -> dev = "" \/ is_device dev -> is_lid_marker sfx ->
        bare_of a = u +:+ "@lid" /\ device_of a = dev).
Proof.
  apply (normalize_mapped_address Store handler mapped_store "123:4@LID"
           "555@s.whatsapp.net" {[ "123@lid" := "555@s.whatsapp.net" ]}).
  - apply test_suffix. vm_compute. reflexivity.
  - vm_compute. reflexivity.
  - vm_compute. reflexivity.
  - discriminate.
Defined.

(** The run of the witness: the device suffix goes before the ending. *)
Example normalize_mapped_address_run :
  result (run handler (normalizeLidToJid "123:4@LID") mapped_store)
  = Ok "555:4@s.whatsapp.net".
Proof. vm_compute. reflexivity. Qed.

(** C2 as stated fails: the entry "555@c.us" of the bare identifier
    "123@lid" is not empty, the address "123:4@lid" has the device suffix
    ":4", and the result is the entry as it is, the same as for the address
    without device: the suffix is not attached. *)
Lemma normalize_mapped_address_counterexample :
  let st := mkStore {[ "123@lid" := "555@c.us" ]} ∅ ∅ ∅ false in
  bare_of "123:4@lid" = "123@lid"
  /\ device_of "123:4@lid" = ":4"
  /\ lid_mapping st !! "123@lid" = Some "555@c.us"
  /\ result (run handler (normalizeLidToJid "123:4@lid") st) = Ok "555@c.us"
  /\ result (run handler (normalizeLidToJid "123@lid") st) = Ok "555@c.us".
Proof. vm_compute. repeat split. Qed.

(** C4, as the code has it. In a store state that the lookup leaves as it
    is, and in which the entry of the bare identifier of [a], if there is
    one, is not itself in the alternate scheme (it does not end in
    [@lid]), normalising the result of [normalizeLidToJid a] gives that
    result again. *)
Theorem normalize_idempotent :
  forall (W : Type) (h : Handler W) (w : W) (a : string),
    after h (KeysGet LidMapping [bare_of a]) w = w ->
    (forall (res : gmap string string) c,
        answer h (KeysGet LidMapping [bare_of a]) w = Ok res ->
        res !! bare_of a = Some c -> ~ ends_with_ci "@lid" c) ->
    result (run h (let* n := normalizeLidToJid a in normalizeLidToJid n)%prog w)
    = result (run h (normalizeLidToJid a) w).
Proof.
  intros W h w a Hfixed Hcanon. rewrite run_bind.
  destruct (test re_lid a) eqn:Hlid.
  - rewrite (run_normalize_lid h w a Hlid). cbv zeta. cbn [result world trace].
    rewrite Hfixed.
    destruct (answer h (KeysGet LidMapping [bare_of a]) w) as [res|e] eqn:Hans;
      unfold normalized.
    + destruct ((res : gmap string string) !! bare_of a) as [c|] eqn:Hres.
      * case_bool_decide as Hc.
        -- rewrite run_normalize_plain; [done|].
           apply attach_not_lid; [|apply device_of_shape].
           by apply (Hcanon _ _ eq_refl Hres).
        -- rewrite (run_normalize_lid h w a Hlid). cbv zeta. cbn [result].
           rewrite Hans. unfold normalized. rewrite Hres.
           by rewrite bool_decide_eq_false_2 by auto.
      * rewrite (run_normalize_lid h w a Hlid). cbv zeta. cbn [result].
        rewrite Hans. unfold normalized. by rewrite Hres.
    + rewrite (run_normalize_lid h w a Hlid). cbv zeta. cbn [result].
      by rewrite Hans.
  - rewrite (run_normalize_plain h w a Hlid). cbn [result world trace].
    by rewrite (run_normalize_plain h w a Hlid).
Qed.

Lemma normalize_idempotent_witness :
  result (run handler (let* n := normalizeLidToJid "123:4@lid" in normalizeLidToJid n)%prog
            mapped_store)
  = result (run handler (normalizeLidToJid "123:4@lid") mapped_store).
Proof.
  apply (normalize_idempotent Store handler mapped_store "123:4@lid").
  - reflexivity.
  - intros res c Hans Hres. vm_compute in Hans. injection Hans as <-.
    vm_compute in Hres. injection Hres as <-.
    apply test_suffix_false. vm_compute. reflexivity.
Defined.

(** C4 as stated fails: with the entries "7@lid" -> "8@lid" and
    "8@lid" -> "9@s.whatsapp.net", normalising "7@lid" gives "8@lid", and
    normalising that gives "9@s.whatsapp.net". *)
Lemma normalize_idempotent_counterexample :
  let st :=
    mkStore {[ "7@lid" := "8@lid"; "8@lid" := "9@s.whatsapp.net" ]} ∅ ∅ ∅ false in
  result (run handler (normalizeLidToJid "7@lid") st) = Ok "8@lid"
  /\ result (run handler (let* n := normalizeLidToJid "7@lid" in normalizeLidToJid n)%prog st)
     = Ok "9@s.whatsapp.net"
  /\ result (run handler (let* n := normalizeLidToJid "7@lid" in normalizeLidToJid n)%prog st)
     <> result (run handler (normalizeLidToJid "7@lid") st).
Proof. vm_compute. repeat split. discriminate. Qed.

(** The storage callbacks read and write the session under the normalised
    form of the id they are handed. *)
Lemma run_loadSession {W : Type} (h : Handler W) (w : W) creds (id norm : string) :
  result (run h (normalizeLidToJid id) w) = Ok norm ->
  let n := run h (normalizeLidToJid id) w in
  trace (run h (loadSession (signalStorage creds) id) w)
  = trace n ++ [Called (KeysGet Session [norm])
                       (answer h (KeysGet Session [norm]) (world n))].
Proof.
  intros Hn. cbv zeta. cbn [loadSession signalStorage].
  rewrite run_bind, Hn. cbv zeta. cbn [trace]. f_equal.
  rewrite run_bind, run_call. cbn [result world trace].
  destruct (answer h (KeysGet Session [norm]) _) as [res|e]; [|done].
  cbn [trace]. by destruct (_ !! norm).
Qed.

Lemma run_storeSession {W : Type} (h : Handler W) (w : W) creds (id norm : string) rec :
  result (run h (normalizeLidToJid id) w) = Ok norm ->
  let n := run h (normalizeLidToJid id) w in
  let ev := KeysSet Session {[ norm := Some (SessionRecord_serialize rec) ]} in
  trace (run h (storeSession (signalStorage creds) id rec) w)
  = trace n ++ [Called ev (answer h ev (world n))].
Proof.
  intros Hn. cbv zeta. cbn [storeSession signalStorage].
  rewrite run_bind, Hn. cbv zeta. cbn [trace]. f_equal.
  by rewrite run_call.
Qed.

(** C1, as the code has it. Each 1:1 operation resolves the address it is
    given as it is: the one call it makes is to the cipher (or builder) for
    the address decoded from the raw [jid]; it does not run the normaliser.
    The normaliser runs in the storage callbacks: [loadSession] and
    [storeSession] read and write the session under the normalised form of
    the id they are handed. *)
Theorem session_operations_resolve_raw_address :
  forall (jidDecode : string -> option FullJid) (creds : SignalCreds)
         (W : Type) (h : Handler W) (w : W) (jid : string) (fj : FullJid)
         (ct data : bytes) (session : E2ESession)
         (id : string) (rec : SessionRecord),
    jidDecode jid = Some fj ->
    let addr := mkProtocolAddress (user fj) (default 0%Z (device fj)) in
    let n := run h (normalizeLidToJid id) w in
    trace (run h (decryptMessage jidDecode jid "pkmsg" ct) w)
    = [Called (DecryptPreKeyWhisperMessage addr ct)
              (answer h (DecryptPreKeyWhisperMessage addr ct) w)]
    /\ trace (run h (decryptMessage jidDecode jid "msg" ct) w)
       = [Called (DecryptWhisperMessage addr ct)
                 (answer h (DecryptWhisperMessage addr ct) w)]
    /\ trace (run h (encryptMessage jidDecode jid data) w)
       = [Called (Encrypt addr data) (answer h (Encrypt addr data) w)]
    /\ trace (run h (injectE2ESession jidDecode jid session) w)
       = [Called (InitOutgoing addr session) (answer h (InitOutgoing addr session) w)]
    /\ exists norm,
         result n = Ok norm
         /\ trace (run h (loadSession (signalStorage creds) id) w)
            = trace n ++ [Called (KeysGet Session [norm])
                                 (answer h (KeysGet Session [norm]) (world n))]
         /\ trace (run h (storeSession (signalStorage creds) id rec) w)
            = trace n
              ++ [Called (KeysSet Session {[ norm := Some (SessionRecord_serialize rec) ]})
                         (answer h (KeysSet Session
                                      {[ norm := Some (SessionRecord_serialize rec) ]})
                                 (world n))].
Proof.
  intros jidDecode creds W h w jid fj ct data session id rec Hfj. cbv zeta.
  pose proof (resolver_decoded jidDecode jid fj Hfj) as Haddr.
  repeat split.
  - unfold decryptMessage. rewrite run_bind, run_lift, Haddr. cbn [result world trace].
    rewrite bool_decide_eq_true_2 by done. cbn.
    by destruct (answer h _ w).
  - unfold decryptMessage. rewrite run_bind, run_lift, Haddr. cbn [result world trace].
    rewrite bool_decide_eq_false_2, bool_decide_eq_true_2 by done. cbn.
    by destruct (answer h _ w).
  - unfold encryptMessage. rewrite run_bind, run_lift, Haddr. cbn.
    by destruct (answer h _ w) as [[sigType body]|].
  - unfold injectE2ESession. rewrite run_bind, run_lift, Haddr. cbn.
    by destruct (answer h _ w).
  - destruct (run_normalize_ok h w id) as [norm Hn]. exists norm.
    split; [done|]. split.
    + by apply run_loadSession.
    + by apply run_storeSession.
Qed.

Lemma session_operations_resolve_raw_address_witness :
  let addr := mkProtocolAddress "123" 4%Z in
  let n := run handler (normalizeLidToJid "123:4@lid") mapped_store in
  trace (run handler (decryptMessage SpecModel.jidDecode "123:4@lid" "pkmsg" []) mapped_store)
  = [Called (DecryptPreKeyWhisperMessage addr [])
            (answer handler (DecryptPreKeyWhisperMessage addr []) mapped_store)]
  /\ trace (run handler (decryptMessage SpecModel.jidDecode "123:4@lid" "msg" []) mapped_store)
     = [Called (DecryptWhisperMessage addr [])
               (answer handler (DecryptWhisperMessage addr []) mapped_store)]
  /\ trace (run handler (encryptMessage SpecModel.jidDecode "123:4@lid" []) mapped_store)
     = [Called (Encrypt addr []) (answer handler (Encrypt addr []) mapped_store)]
  /\ trace (run handler (injectE2ESession SpecModel.jidDecode "123:4@lid" (mkE2ESession []))
              mapped_store)
     = [Called (InitOutgoing addr (mkE2ESession []))
               (answer handler (InitOutgoing addr (mkE2ESession [])) mapped_store)]
  /\ exists norm,
       result n = Ok norm
       /\ trace (run handler (loadSession (signalStorage
                   (mkSignalCreds (mkKeyPair [] [])
                      (mkSignedKeyPair (mkKeyPair [] []) [] 1%Z None) 7%Z))
                   "123:4@lid") mapped_store)
          = trace n ++ [Called (KeysGet Session [norm])
                               (answer handler (KeysGet Session [norm]) (world n))]
       /\ trace (run handler (storeSession (signalStorage
                   (mkSignalCreds (mkKeyPair [] [])
                      (mkSignedKeyPair (mkKeyPair [] []) [] 1%Z None) 7%Z))
                   "123:4@lid" (SessionRecord_deserialize [])) mapped_store)
          = trace n
            ++ [Called (KeysSet Session {[ norm := Some [] ]})
                       (answer handler (KeysSet Session {[ norm := Some [] ]}) (world n))].
Proof.
  apply (session_operations_resolve_raw_address SpecModel.jidDecode
           (mkSignalCreds (mkKeyPair [] []) (mkSignedKeyPair (mkKeyPair [] []) [] 1%Z None) 7%Z)
           Store handler mapped_store "123:4@lid" (mkFullJid "123" (Some 4%Z) "lid")
           [] [] (mkE2ESession []) "123:4@lid" (SessionRecord_deserialize [])).
  vm_compute. reflexivity.
Defined.

(** C1 as stated fails. In a store that maps "123@lid" to
    "555@s.whatsapp.net", the operations for the address "123@lid" make
    one call each, to the cipher or builder for the address (123, 0):
    there is no lookup of the mapping before it, and the address is not
    (555, 0), the one that normalising first and resolving then gives. *)
Lemma session_operations_counterexample :
  result (run handler (normalizeLidToJid "123@lid") mapped_store)
  = Ok "555@s.whatsapp.net"
  /\ result (run handler
               (let* norm := normalizeLidToJid "123@lid" in
                lift (jidToSignalProtocolAddress SpecModel.jidDecode norm))%prog
               mapped_store)
     = Ok (mkProtocolAddress "555" 0%Z)
  /\ trace (run handler (decryptMessage SpecModel.jidDecode "123@lid" "msg" []) mapped_store)
     = [Called (DecryptWhisperMessage (mkProtocolAddress "123" 0%Z) []) (Ok [])]
  /\ trace (run handler (encryptMessage SpecModel.jidDecode "123@lid" []) mapped_store)
     = [Called (Encrypt (mkProtocolAddress "123" 0%Z) []) (Ok (3%Z, ""))]
  /\ trace (run handler (injectE2ESession SpecModel.jidDecode "123@lid" (mkE2ESession []))
              mapped_store)
     = [Called (InitOutgoing (mkProtocolAddress "123" 0%Z) (mkE2ESession [])) (Ok tt)]
  /\ mkProtocolAddress "123" 0%Z <> mkProtocolAddress "555" 0%Z.
Proof. vm_compute. repeat split. discriminate. Qed.

(** C8. With a resolvable own address and collaborators that answer,
    [encryptGroupMessage] makes its calls in this order: it asks the store
    for the sender key under the sender-key name; when (and only when) the
    answer has no record under that name it stores the serialised empty
    record, through the storage callback, which normalises the name; it has
    the builder create the distribution message; it has the group cipher
    encrypt the data. It returns the ciphertext together with the
    serialised distribution message. *)
Theorem encryptGroupMessage_steps :
  forall (jidDecode : string -> option FullJid)
         (SenderKeyName_toString : string -> ProtocolAddress -> string)
         (creds : SignalCreds) (W : Type) (h : Handler W) (w : W)
         (group meId senderName : string) (data : bytes),
    jidToSignalSenderKeyName jidDecode SenderKeyName_toString group meId = Ok senderName ->
    answers_all h ->
    let r := run h (encryptGroupMessage jidDecode SenderKeyName_toString creds
                      group meId data) w in
    let w1 := after h (KeysGet SenderKey [senderName]) w in
    let n := run h (normalizeLidToJid senderName) w1 in
    exists (stored : gmap string bytes) (ensure : list Call)
           (skdm : SenderKeyDistributionMessage) (ct : bytes),
      trace r
      = Called (KeysGet SenderKey [senderName]) (Ok stored)
          :: ensure
          ++ [Called (GroupCreate senderName) (Ok skdm);
              Called (GroupEncrypt senderName data) (Ok ct)]
      /\ result r = Ok (mkGroupEncrypted ct (SenderKeyDistributionMessage_serialize skdm))
      /\ (is_Some (stored !! senderName) -> ensure = [])
      /\ (stored !! senderName = None ->
          exists norm,
            result n = Ok norm
            /\ ensure
               = trace n
                 ++ [Called (KeysSet SenderKey
                               {[ norm := Some (SenderKeyRecord_serialize
                                                  SenderKeyRecord_new) ]})
                            (Ok tt)]).
Proof.
  intros jidDecode toString creds W h w group meId senderName data Hname Hall.
  cbv zeta. unfold encryptGroupMessage.
  rewrite run_bind, run_lift, Hname. cbn [result world trace app].
  rewrite run_bind, run_call. cbn [result world trace app].
  destruct (Hall _ (KeysGet SenderKey [senderName]) w) as [stored Hstored].
  rewrite Hstored. exists stored.
  set (w1 := after h (KeysGet SenderKey [senderName]) w).
  rewrite run_bind.
  destruct ((stored : gmap string bytes) !! senderName) as [key|] eqn:Hkey.
  - cbn [run result world trace app].
    rewrite run_bind, run_call. cbn [result world trace app].
    destruct (Hall _ (GroupCreate senderName) w1) as [skdm Hskdm]. rewrite Hskdm.
    rewrite run_bind, run_call. cbn [result world trace app].
    destruct (Hall _ (GroupEncrypt senderName data)
                (after h (GroupCreate senderName) w1)) as [ct Hct]. rewrite Hct.
    cbn [run result world trace app].
    exists [], skdm, ct. split; [done|]. split; [done|]. split; [done|].
    intros [=].
  - cbn [storeSenderKey storage signalStorage].
    rewrite run_bind.
    destruct (run_normalize_ok h w1 senderName) as [norm Hnorm]. rewrite Hnorm.
    cbv zeta. cbn [result world trace app].
    set (n := run h (normalizeLidToJid senderName) w1).
    rewrite run_call. cbn [result world trace app].
    set (ev := KeysSet SenderKey _).
    destruct (Hall _ ev (world n)) as [[] Hset]. rewrite Hset.
    rewrite run_bind, run_call. cbn [result world trace app].
    destruct (Hall _ (GroupCreate senderName) (after h ev (world n))) as [skdm Hskdm].
    rewrite Hskdm.
    rewrite run_bind, run_call. cbn [result world trace app].
    destruct (Hall _ (GroupEncrypt senderName data)
                (after h (GroupCreate senderName) (after h ev (world n)))) as [ct Hct].
    rewrite Hct. cbn [run result world trace app].
    exists (trace n ++ [Called ev (Ok tt)]), skdm, ct.
    split; [by rewrite <- !List.app_assoc|]. split; [done|]. split.
    + by intros [? [=]].
    + intros _. by exists norm.
Qed.

Lemma reliable_handler_answers : answers_all reliable_handler.
Proof. intros X ev w. destruct ev; eexists; reflexivity. Qed.

Lemma encryptGroupMessage_steps_witness :
  let creds :=
    mkSignalCreds (mkKeyPair [] []) (mkSignedKeyPair (mkKeyPair [] []) [] 1%Z None) 7%Z in
  let senderName := "120363@g.us::555::2" in
  let data := [Byte.x68; Byte.x69] in
  let r := run reliable_handler
             (encryptGroupMessage SpecModel.jidDecode SpecModel.SenderKeyName_toString
                creds "120363@g.us" "555:2@s.whatsapp.net" data) empty_store in
  let w1 := after reliable_handler (KeysGet SenderKey [senderName]) empty_store in
  let n := run reliable_handler (normalizeLidToJid senderName) w1 in
  exists (stored : gmap string bytes) (ensure : list Call)
         (skdm : SenderKeyDistributionMessage) (ct : bytes),
    trace r
    = Called (KeysGet SenderKey [senderName]) (Ok stored)
        :: ensure
        ++ [Called (GroupCreate senderName) (Ok skdm);
            Called (GroupEncrypt senderName data) (Ok ct)]
    /\ result r = Ok (mkGroupEncrypted ct (SenderKeyDistributionMessage_serialize skdm))
    /\ (is_Some (stored !! senderName) -> ensure = [])
    /\ (stored !! senderName = None ->
        exists norm,
          result n = Ok norm
          /\ ensure
             = trace n
               ++ [Called (KeysSet SenderKey
                             {[ norm := Some (SenderKeyRecord_serialize
                                                SenderKeyRecord_new) ]})
                          (Ok tt)]).
Proof.
  apply (encryptGroupMessage_steps SpecModel.jidDecode SpecModel.SenderKeyName_toString
           (mkSignalCreds (mkKeyPair [] []) (mkSignedKeyPair (mkKeyPair [] []) [] 1%Z None) 7%Z)
           Store reliable_handler empty_store "120363@g.us" "555:2@s.whatsapp.net"
           "120363@g.us::555::2" [Byte.x68; Byte.x69]).
  - vm_compute. reflexivity.
  - exact reliable_handler_answers.
Defined.

(** The run of the witness, in full: no record is stored for the name, so
    the empty record is written before the builder and the cipher are
    called. *)
Example encryptGroupMessage_fresh_run :
  let creds :=
    mkSignalCreds (mkKeyPair [] []) (mkSignedKeyPair (mkKeyPair [] []) [] 1%Z None) 7%Z in
  let senderName := "120363@g.us::555::2" in
  let r := run reliable_handler
             (encryptGroupMessage SpecModel.jidDecode SpecModel.SenderKeyName_toString
                creds "120363@g.us" "555:2@s.whatsapp.net" [Byte.x68; Byte.x69])
             empty_store in
  trace r
  = [Called (KeysGet SenderKey [senderName]) (Ok ∅);
     Called (KeysSet SenderKey {[ senderName := Some [] ]}) (Ok tt);
     Called (GroupCreate senderName)
       (Ok (mkSenderKeyDistributionMessage (String.list_byte_of_string senderName)));
     Called (GroupEncrypt senderName [Byte.x68; Byte.x69]) (Ok [Byte.x68; Byte.x69])]
  /\ sender_keys (world r) !! senderName = Some [].
Proof. vm_compute. split; reflexivity. Qed.

(* ===================================================================== *)
(** ** Further properties of the repository *)
(* ===================================================================== *)

Import PreKeys MoreNotions ReadOnlyMemory.

(** X1. When the decoder cannot decode the address, every operation of the
    repository raises the TypeError of the resolver before anything else
    happens: no collaborator is called and the world is as it was. *)
Theorem operations_abort_on_undecodable_address :
  forall (jidDecode : string -> option FullJid)
         (SenderKeyName_toString : string -> ProtocolAddress -> string)
         (creds : SignalCreds) (W : Type) (h : Handler W) (w : W)
         (jid group type : string) (payload : bytes) (session : E2ESession),
    jidDecode jid = None ->
    let e := TypeError "Cannot destructure property 'user' of undefined" in
    run h (decryptMessage jidDecode jid type payload) w = mkRun (Raise e) w []
    /\ run h (encryptMessage jidDecode jid payload) w = mkRun (Raise e) w []
    /\ run h (injectE2ESession jidDecode jid session) w = mkRun (Raise e) w []
    /\ run h (decryptGroupMessage jidDecode SenderKeyName_toString group jid payload) w
       = mkRun (Raise e) w []
    /\ run h (encryptGroupMessage jidDecode SenderKeyName_toString creds group jid payload) w
       = mkRun (Raise e) w []
    /\ run h (processSenderKeyDistributionMessage jidDecode SenderKeyName_toString creds
                group payload jid) w
       = mkRun (Raise e) w [].
Proof.
  intros jidDecode toString creds W h w jid group type payload session Hjid. cbv zeta.
  pose proof (resolver_undecodable jidDecode jid Hjid) as Haddr.
  assert (jidToSignalSenderKeyName jidDecode toString group jid
          = Raise (TypeError "Cannot destructure property 'user' of undefined")) as Hname.
  { unfold jidToSignalSenderKeyName. by rewrite Haddr. }
  repeat split.
  - unfold decryptMessage. by rewrite run_bind, run_lift, Haddr.
  - unfold encryptMessage. by rewrite run_bind, run_lift, Haddr.
  - unfold injectE2ESession. by rewrite run_bind, run_lift, Haddr.
  - unfold decryptGroupMessage. by rewrite run_bind, run_lift, Hname.
  - unfold encryptGroupMessage. by rewrite run_bind, run_lift, Hname.
  - unfold processSenderKeyDistributionMessage. by rewrite run_bind, run_lift, Hname.
Qed.

Lemma operations_abort_on_undecodable_address_witness :
  let creds :=
    mkSignalCreds (mkKeyPair [] []) (mkSignedKeyPair (mkKeyPair [] []) [] 1%Z None) 7%Z in
  let e := TypeError "Cannot destructure property 'user' of undefined" in
  run handler (decryptMessage SpecModel.jidDecode "no-server" "msg" []) mapped_store
  = mkRun (Raise e) mapped_store []
  /\ run handler (encryptMessage SpecModel.jidDecode "no-server" []) mapped_store
     = mkRun (Raise e) mapped_store []
  /\ run handler (injectE2ESession SpecModel.jidDecode "no-server" (mkE2ESession []))
       mapped_store
     = mkRun (Raise e) mapped_store []
  /\ run handler (decryptGroupMessage SpecModel.jidDecode SpecModel.SenderKeyName_toString
                    "g@g.us" "no-server" []) mapped_store
     = mkRun (Raise e) mapped_store []
  /\ run handler (encryptGroupMessage SpecModel.jidDecode SpecModel.SenderKeyName_toString
                    creds "g@g.us" "no-server" []) mapped_store
     = mkRun (Raise e) mapped_store []
  /\ run handler (processSenderKeyDistributionMessage SpecModel.jidDecode
                    SpecModel.SenderKeyName_toString creds "g@g.us" [] "no-server")
       mapped_store
     = mkRun (Raise e) mapped_store [].
Proof.
  apply (operations_abort_on_undecodable_address SpecModel.jidDecode
           SpecModel.SenderKeyName_toString
           (mkSignalCreds (mkKeyPair [] []) (mkSignedKeyPair (mkKeyPair [] []) [] 1%Z None) 7%Z)
           Store handler mapped_store "no-server" "g@g.us" "msg" [] (mkE2ESession [])).
  reflexivity.
Defined.

(** X2. The operations that hand their work to one primitive catch
    nothing: with a resolvable address, [decryptMessage] (for "pkmsg" and
    "msg"), [injectE2ESession] and [decryptGroupMessage] return what the
    primitive returns and raise what it raises, and they leave the world as
    the primitive left it. *)
Theorem primitive_outcome_is_passed_on :
  forall (jidDecode : string -> option FullJid)
         (SenderKeyName_toString : string -> ProtocolAddress -> string)
         (W : Type) (h : Handler W) (w : W)
         (jid group : string) (addr : ProtocolAddress) (payload : bytes)
         (session : E2ESession),
    jidToSignalProtocolAddress jidDecode jid = Ok addr ->
    let some (o : outcome bytes) : outcome (option bytes) :=
      match o with Ok plaintext => Ok (Some plaintext) | Raise e => Raise e end in
    let senderName := SenderKeyName_toString group addr in
    (let r := run h (decryptMessage jidDecode jid "pkmsg" payload) w in
     result r = some (answer h (DecryptPreKeyWhisperMessage addr payload) w)
     /\ world r = after h (DecryptPreKeyWhisperMessage addr payload) w)
    /\ (let r := run h (decryptMessage jidDecode jid "msg" payload) w in
        result r = some (answer h (DecryptWhisperMessage addr payload) w)
        /\ world r = after h (DecryptWhisperMessage addr payload) w)
    /\ (let r := run h (injectE2ESession jidDecode jid session) w in
        result r = answer h (InitOutgoing addr session) w
        /\ world r = after h (InitOutgoing addr session) w)
    /\ (let r := run h (decryptGroupMessage jidDecode SenderKeyName_toString
                          group jid payload) w in
        result r = answer h (GroupDecrypt senderName payload) w
        /\ world r = after h (GroupDecrypt senderName payload) w
        /\ trace r = [Called (GroupDecrypt senderName payload)
                             (answer h (GroupDecrypt senderName payload) w)]).
Proof.
  intros jidDecode toString W h w jid group addr payload session Haddr. cbv zeta.
  assert (jidToSignalSenderKeyName jidDecode toString group jid
          = Ok (toString group addr)) as Hname.
  { unfold jidToSignalSenderKeyName. by rewrite Haddr. }
  repeat split.
  - unfold decryptMessage. rewrite run_bind, run_lift, Haddr. cbn [result world trace].
    rewrite bool_decide_eq_true_2 by done. cbn. by destruct (answer h _ w).
  - unfold decryptMessage. rewrite run_bind, run_lift, Haddr. cbn [result world trace].
    rewrite bool_decide_eq_true_2 by done. cbn. by destruct (answer h _ w).
  - unfold decryptMessage. rewrite run_bind, run_lift, Haddr. cbn [result world trace].
    rewrite bool_decide_eq_false_2, bool_decide_eq_true_2 by done. cbn.
    by destruct (answer h _ w).
  - unfold decryptMessage. rewrite run_bind, run_lift, Haddr. cbn [result world trace].
    rewrite bool_decide_eq_false_2, bool_decide_eq_true_2 by done. cbn.
    by destruct (answer h _ w).
  - unfold injectE2ESession. rewrite run_bind, run_lift, Haddr. cbn [result world trace].
    rewrite run_call. by destruct (answer h _ w).
  - unfold injectE2ESession. rewrite run_bind, run_lift, Haddr. cbn [result world trace].
    rewrite run_call. by destruct (answer h _ w).
  - unfold decryptGroupMessage. rewrite run_bind, run_lift, Hname. cbn [result world trace].
    rewrite run_call. by destruct (answer h _ w).
  - unfold decryptGroupMessage. rewrite run_bind, run_lift, Hname. cbn [result world trace].
    rewrite run_call. by destruct (answer h _ w).
  - unfold decryptGroupMessage. rewrite run_bind, run_lift, Hname. cbn [result world trace].
    rewrite run_call. by destruct (answer h _ w).
Qed.

(** X3. [encryptMessage] labels its result "pkmsg" exactly when the cipher
    reports type 3 and "msg" otherwise, and the ciphertext holds the
    characters of the cipher's body as bytes. The label is therefore one
    that [decryptMessage] knows: handed back to it, it makes one call to a
    decoder and never falls through the switch. *)
Theorem encryptMessage_type_reaches_a_decoder :
  forall (jidDecode : string -> option FullJid) (W : Type) (h : Handler W) (w : W)
         (jid type : string) (data ciphertext : bytes),
    result (run h (encryptMessage jidDecode jid data) w) = Ok (type, ciphertext) ->
    exists (addr : ProtocolAddress) (sigType : Z) (body : string),
      jidToSignalProtocolAddress jidDecode jid = Ok addr
      /\ answer h (Encrypt addr data) w = Ok (sigType, body)
      /\ ciphertext = String.list_byte_of_string body
      /\ (sigType = 3%Z /\ type = "pkmsg" \/ sigType <> 3%Z /\ type = "msg")
      /\ forall (W' : Type) (h' : Handler W') (w' : W'),
           exists ev : Event bytes,
             (ev = DecryptPreKeyWhisperMessage addr ciphertext
              \/ ev = DecryptWhisperMessage addr ciphertext)
             /\ trace (run h' (decryptMessage jidDecode jid type ciphertext) w')
                = [Called ev (answer h' ev w')].
Proof.
  intros jidDecode W h w jid type data ciphertext.
  unfold encryptMessage. rewrite run_bind, run_lift.
  destruct (jidToSignalProtocolAddress jidDecode jid) as [addr|e] eqn:Haddr; [|done].
  cbn [result world trace]. rewrite run_bind, run_call. cbn [result world trace].
  destruct (answer h (Encrypt addr data) w) as [[sigType body]|e] eqn:Henc; [|done].
  cbn. intros [= <- <-]. exists addr, sigType, body.
  split; [done|]. split; [done|]. split; [done|].
  assert (forall (W' : Type) (h' : Handler W') (w' : W') (ty : string),
            ty = "pkmsg" \/ ty = "msg" ->
            exists ev : Event bytes,
              (ev = DecryptPreKeyWhisperMessage addr (Buffer_from_binary body)
               \/ ev = DecryptWhisperMessage addr (Buffer_from_binary body))
              /\ trace (run h' (decryptMessage jidDecode jid ty (Buffer_from_binary body)) w')
                 = [Called ev (answer h' ev w')]) as Hdec.
  { intros W' h' w' ty Hty. unfold decryptMessage.
    rewrite run_bind, run_lift, Haddr. cbn [result world trace].
    destruct Hty as [-> | ->].
    - rewrite bool_decide_eq_true_2 by done. eexists. split; [by left|].
      cbn. by destruct (answer h' _ w').
    - rewrite bool_decide_eq_false_2, bool_decide_eq_true_2 by done.
      eexists. split; [by right|]. cbn. by destruct (answer h' _ w'). }
  case_bool_decide as Hsig.
  - split; [by left|]. intros W' h' w'. apply Hdec. by left.
  - split; [by right|]. intros W' h' w'. apply Hdec. by right.
Qed.

Lemma encryptMessage_type_reaches_a_decoder_witness :
  exists (addr : ProtocolAddress) (sigType : Z) (body : string),
    jidToSignalProtocolAddress SpecModel.jidDecode "555:2@s.whatsapp.net" = Ok addr
    /\ answer handler (Encrypt addr [Byte.x68; Byte.x69]) mapped_store = Ok (sigType, body)
    /\ [Byte.x68; Byte.x69] = String.list_byte_of_string body
    /\ (sigType = 3%Z /\ "pkmsg" = "pkmsg" \/ sigType <> 3%Z /\ "pkmsg" = "msg")
    /\ forall (W' : Type) (h' : Handler W') (w' : W'),
         exists ev : Event bytes,
           (ev = DecryptPreKeyWhisperMessage addr [Byte.x68; Byte.x69]
            \/ ev = DecryptWhisperMessage addr [Byte.x68; Byte.x69])
           /\ trace (run h' (decryptMessage SpecModel.jidDecode "555:2@s.whatsapp.net"
                               "pkmsg" [Byte.x68; Byte.x69]) w')
              = [Called ev (answer h' ev w')].
Proof.
  apply (encryptMessage_type_reaches_a_decoder SpecModel.jidDecode Store handler
           mapped_store "555:2@s.whatsapp.net" "pkmsg" [Byte.x68; Byte.x69]
           [Byte.x68; Byte.x69]).
  vm_compute. reflexivity.
Defined.

Lemma primitive_outcome_is_passed_on_witness :
  let addr := mkProtocolAddress "555" 2%Z in
  let senderName := "g@g.us::555::2" in
  let payload := [Byte.x68; Byte.x69] in
  (let r := run handler (decryptMessage SpecModel.jidDecode "555:2@s.whatsapp.net"
                           "pkmsg" payload) broken_store in
   result r = Ok (Some payload) /\ world r = broken_store)
  /\ (let r := run handler (decryptMessage SpecModel.jidDecode "555:2@s.whatsapp.net"
                              "msg" payload) broken_store in
      result r = Ok (Some payload) /\ world r = broken_store)
  /\ (let r := run handler (injectE2ESession SpecModel.jidDecode "555:2@s.whatsapp.net"
                              (mkE2ESession [])) broken_store in
      result r = Ok tt /\ world r = broken_store)
  /\ (let r := run handler (decryptGroupMessage SpecModel.jidDecode
                              SpecModel.SenderKeyName_toString "g@g.us"
                              "555:2@s.whatsapp.net" payload) broken_store in
      result r = Ok payload /\ world r = broken_store
      /\ trace r = [Called (GroupDecrypt senderName payload) (Ok payload)]).
Proof.
  apply (primitive_outcome_is_passed_on SpecModel.jidDecode SpecModel.SenderKeyName_toString
           Store handler broken_store "555:2@s.whatsapp.net" "g@g.us"
           (mkProtocolAddress "555" 2%Z) [Byte.x68; Byte.x69] (mkE2ESession [])).
  vm_compute. reflexivity.
Defined.

(** X4. With a resolvable author address and collaborators that answer,
    [processSenderKeyDistributionMessage] asks the store for the sender key
    under the sender-key name, stores the serialised empty record when (and
    only when) the answer has no record under that name, and then hands the
    distribution message, built from the bytes of the item, to the builder.
    A record that is there is not written again. *)
Theorem processSenderKeyDistributionMessage_steps :
  forall (jidDecode : string -> option FullJid)
         (SenderKeyName_toString : string -> ProtocolAddress -> string)
         (creds : SignalCreds) (W : Type) (h : Handler W) (w : W)
         (groupId authorJid senderName : string) (item : bytes),
    jidToSignalSenderKeyName jidDecode SenderKeyName_toString groupId authorJid
    = Ok senderName ->
    answers_all h ->
    let r := run h (processSenderKeyDistributionMessage jidDecode SenderKeyName_toString
                      creds groupId item authorJid) w in
    let w1 := after h (KeysGet SenderKey [senderName]) w in
    let n := run h (normalizeLidToJid senderName) w1 in
    exists (stored : gmap string bytes) (ensure : list Call),
      trace r
      = Called (KeysGet SenderKey [senderName]) (Ok stored)
          :: ensure
          ++ [Called (GroupProcess senderName (mkSenderKeyDistributionMessage item))
                     (Ok tt)]
      /\ result r = Ok tt
      /\ (is_Some (stored !! senderName) -> ensure = [])
      /\ (stored !! senderName = None ->
          exists norm,
            result n = Ok norm
            /\ ensure
               = trace n
                 ++ [Called (KeysSet SenderKey
                               {[ norm := Some (SenderKeyRecord_serialize
                                                  SenderKeyRecord_new) ]})
                            (Ok tt)]).
Proof.
  intros jidDecode toString creds W h w groupId authorJid senderName item Hname Hall.
  cbv zeta. unfold processSenderKeyDistributionMessage.
  rewrite run_bind, run_lift, Hname. cbn [result world trace app].
  rewrite run_bind, run_call. cbn [result world trace app].
  destruct (Hall _ (KeysGet SenderKey [senderName]) w) as [stored Hstored].
  rewrite Hstored. exists stored.
  set (w1 := after h (KeysGet SenderKey [senderName]) w).
  rewrite run_bind.
  destruct ((stored : gmap string bytes) !! senderName) as [key|] eqn:Hkey.
  - cbn [run result world trace app]. rewrite run_call.
    set (ev := GroupProcess senderName _).
    destruct (Hall _ ev w1) as [[] Hproc]. rewrite Hproc. cbn [result world trace app].
    exists []. split; [done|]. split; [done|]. split; [done|]. intros [=].
  - cbn [storeSenderKey storage signalStorage].
    rewrite run_bind.
    destruct (run_normalize_ok h w1 senderName) as [norm Hnorm]. rewrite Hnorm.
    cbv zeta. cbn [result world trace app].
    set (n := run h (normalizeLidToJid senderName) w1).
    rewrite run_call. cbn [result world trace app].
    set (ev := KeysSet SenderKey _).
    destruct (Hall _ ev (world n)) as [[] Hset]. rewrite Hset.
    rewrite run_call.
    set (evp := GroupProcess senderName _).
    destruct (Hall _ evp (after h ev (world n))) as [[] Hproc]. rewrite Hproc.
    cbn [result world trace app].
    exists (trace n ++ [Called ev (Ok tt)]).
    split; [by rewrite <- !List.app_assoc|]. split; [done|]. split.
    + by intros [? [=]].
    + intros _. by exists norm.
Qed.

Lemma processSenderKeyDistributionMessage_steps_witness :
  let creds :=
    mkSignalCreds (mkKeyPair [] []) (mkSignedKeyPair (mkKeyPair [] []) [] 1%Z None) 7%Z in
  let senderName := "120363@g.us::555::2" in
  let item := [Byte.x68; Byte.x69] in
  let r := run reliable_handler
             (processSenderKeyDistributionMessage SpecModel.jidDecode
                SpecModel.SenderKeyName_toString creds "120363@g.us" item
                "555:2@s.whatsapp.net") empty_store in
  let w1 := after reliable_handler (KeysGet SenderKey [senderName]) empty_store in
  let n := run reliable_handler (normalizeLidToJid senderName) w1 in
  exists (stored : gmap string bytes) (ensure : list Call),
    trace r
    = Called (KeysGet SenderKey [senderName]) (Ok stored)
        :: ensure
        ++ [Called (GroupProcess senderName (mkSenderKeyDistributionMessage item))
                   (Ok tt)]
    /\ result r = Ok tt
    /\ (is_Some (stored !! senderName) -> ensure = [])
    /\ (stored !! senderName = None ->
        exists norm,
          result n = Ok norm
          /\ ensure
             = trace n
               ++ [Called (KeysSet SenderKey
                             {[ norm := Some (SenderKeyRecord_serialize
                                                SenderKeyRecord_new) ]})
                          (Ok tt)]).
Proof.
  apply (processSenderKeyDistributionMessage_steps SpecModel.jidDecode
           SpecModel.SenderKeyName_toString
           (mkSignalCreds (mkKeyPair [] []) (mkSignedKeyPair (mkKeyPair [] []) [] 1%Z None) 7%Z)
           Store reliable_handler empty_store "120363@g.us" "555:2@s.whatsapp.net"
           "120363@g.us::555::2" [Byte.x68; Byte.x69]).
  - vm_compute. reflexivity.
  - exact reliable_handler_answers.
Defined.

(** X5. The group operations do not catch a failure of the store. When
    the lookup of the sender key throws, [encryptGroupMessage] and
    [processSenderKeyDistributionMessage] raise that exception after this
    one call: nothing is written, and neither the builder nor the cipher is
    called. *)
Theorem group_operations_abort_on_store_failure :
  forall (jidDecode : string -> option FullJid)
         (SenderKeyName_toString : string -> ProtocolAddress -> string)
         (creds : SignalCreds) (W : Type) (h : Handler W) (w : W)
         (group jid senderName : string) (payload : bytes) (e : Error),
    jidToSignalSenderKeyName jidDecode SenderKeyName_toString group jid = Ok senderName ->
    answer h (KeysGet SenderKey [senderName]) w = Raise e ->
    let lookup := Called (KeysGet SenderKey [senderName]) (Raise e) in
    let w1 := after h (KeysGet SenderKey [senderName]) w in
    run h (encryptGroupMessage jidDecode SenderKeyName_toString creds group jid payload) w
    = mkRun (Raise e) w1 [lookup]
    /\ run h (processSenderKeyDistributionMessage jidDecode SenderKeyName_toString creds
                group payload jid) w
       = mkRun (Raise e) w1 [lookup].
Proof.
  intros jidDecode toString creds W h w group jid senderName payload e Hname Hget.
  cbv zeta. split.
  - unfold encryptGroupMessage. rewrite run_bind, run_lift, Hname.
    cbn [result world trace app]. rewrite run_bind, run_call, Hget. done.
  - unfold processSenderKeyDistributionMessage. rewrite run_bind, run_lift, Hname.
    cbn [result world trace app]. rewrite run_bind, run_call, Hget. done.
Qed.

Lemma group_operations_abort_on_store_failure_witness :
  let creds :=
    mkSignalCreds (mkKeyPair [] []) (mkSignedKeyPair (mkKeyPair [] []) [] 1%Z None) 7%Z in
  let senderName := "120363@g.us::555::2" in
  let lookup :=
    Called (KeysGet SenderKey [senderName]) (Raise (Thrown "store unavailable")) in
  let w1 := after handler (KeysGet SenderKey [senderName]) broken_store in
  run handler (encryptGroupMessage SpecModel.jidDecode SpecModel.SenderKeyName_toString
                 creds "120363@g.us" "555:2@s.whatsapp.net" []) broken_store
  = mkRun (Raise (Thrown "store unavailable")) w1 [lookup]
  /\ run handler (processSenderKeyDistributionMessage SpecModel.jidDecode
                    SpecModel.SenderKeyName_toString creds "120363@g.us" []
                    "555:2@s.whatsapp.net") broken_store
     = mkRun (Raise (Thrown "store unavailable")) w1 [lookup].
Proof.
  apply (group_operations_abort_on_store_failure SpecModel.jidDecode
           SpecModel.SenderKeyName_toString
           (mkSignalCreds (mkKeyPair [] []) (mkSignedKeyPair (mkKeyPair [] []) [] 1%Z None) 7%Z)
           Store handler broken_store "120363@g.us" "555:2@s.whatsapp.net"
           "120363@g.us::555::2" [] (Thrown "store unavailable")).
  - vm_compute. reflexivity.
  - vm_compute. reflexivity.
Defined.

(** X6. [normalizeLidToJid] only reads: on every run it makes no call or
    one call, and that call is the lookup of the bare identifier in the
    mapping table. It never writes to the store and never reaches a cipher
    or builder. *)
Theorem normalize_only_reads_the_mapping :
  forall (W : Type) (h : Handler W) (w : W) (id : string),
    let t := trace (run h (normalizeLidToJid id) w) in
    Forall is_mapping_lookup t
    /\ (t = []
        \/ t = [Called (KeysGet LidMapping [bare_of id])
                       (answer h (KeysGet LidMapping [bare_of id]) w)]).
Proof.
  intros W h w id. cbv zeta. destruct (test re_lid id) eqn:Hlid.
  - rewrite run_normalize_lid by done. cbv zeta. cbn [trace]. split; [|by right].
    constructor; [exact I|constructor].
  - rewrite run_normalize_plain by done. cbn [trace]. split; [constructor|by left].
Qed.

(** X7. The load callbacks of the storage only read, and they fail only
    when their own lookup fails: [loadSession] and [loadSenderKey] look up
    the normalised id, return the record found there or [undefined] when
    there is none, and raise what the lookup of the record raises. A
    failure of the mapping lookup made for the normalisation is not
    raised. *)
Theorem load_callbacks_outcome :
  forall (creds : SignalCreds) (W : Type) (h : Handler W) (w : W) (id : string),
    let n := run h (normalizeLidToJid id) w in
    exists norm,
      result n = Ok norm
      /\ (let r := run h (loadSession (signalStorage creds) id) w in
          Forall is_store_read (trace r)
          /\ result r
             = match answer h (KeysGet Session [norm]) (world n) with
               | Ok res => Ok (SessionRecord_deserialize <$> (res : gmap string bytes) !! norm)
               | Raise e => Raise e
               end)
      /\ (let r := run h (loadSenderKey (signalStorage creds) id) w in
          Forall is_store_read (trace r)
          /\ result r
             = match answer h (KeysGet SenderKey [norm]) (world n) with
               | Ok res => Ok (mkSenderKeyRecord <$> (res : gmap string bytes) !! norm)
               | Raise e => Raise e
               end).
Proof.
  intros creds W h w id. cbv zeta.
  destruct (run_normalize_ok h w id) as [norm Hn]. exists norm. split; [done|].
  assert (Forall is_store_read (trace (run h (normalizeLidToJid id) w))) as Hreads.
  { destruct (test re_lid id) eqn:Hlid.
    - rewrite run_normalize_lid by done. cbv zeta. cbn [trace].
      constructor; [exact I|constructor].
    - rewrite run_normalize_plain by done. constructor. }
  split.
  - cbn [loadSession signalStorage]. rewrite run_bind, Hn. cbv zeta.
    cbn [result world trace]. rewrite run_bind, run_call. cbn [result world trace].
    destruct (answer h (KeysGet Session [norm]) _) as [res|e]; cbn [result world trace].
    + destruct ((res : gmap string bytes) !! norm); cbn;
        (split; [|done]); apply Forall_app; (split; [done|]);
        (constructor; [exact I|constructor]).
    + split; [|done]. apply Forall_app. split; [done|].
      constructor; [exact I|constructor].
  - cbn [loadSenderKey signalStorage]. rewrite run_bind, Hn. cbv zeta.
    cbn [result world trace]. rewrite run_bind, run_call. cbn [result world trace].
    destruct (answer h (KeysGet SenderKey [norm]) _) as [res|e]; cbn [result world trace].
    + destruct ((res : gmap string bytes) !! norm); cbn;
        (split; [|done]); apply Forall_app; (split; [done|]);
        (constructor; [exact I|constructor]).
    + split; [|done]. apply Forall_app. split; [done|].
      constructor; [exact I|constructor].
Qed.

(** Whatever [/^([^:@]+)(:\d+)?@lid$/i] matches is a well-formed address
    of the alternate scheme. *)
Lemma exec_lid_bare_inv (id : string) (mr : MatchResult) :
  exec re_lid_bare id = Some mr -> well_formed_lid id.
Proof.
  unfold re_lid_bare. rewrite exec_anchored.
  destruct (rmatch _ _ _ _ _ _) as [[e c]|] eqn:H; [|done]. intros _.
  rewrite rmatch_seq, rmatch_group, rmatch_plus in H.
  apply repeat_chr_inv in H as (u & rest & -> & Hne & Hu & Hk). cbv beta in Hk.
  rewrite rmatch_seq, rmatch_opt in Hk.
  assert (is_user u) as Huser.
  { split; [done|]. by rewrite <- (all_ext _ _ _ user_char_atom). }
  destruct (rmatch true (Group 2 _) _ rest _ _) as [res|] eqn:Hgroup.
  - rewrite rmatch_group, rmatch_seq in Hgroup.
    destruct rest as [|ch rest]; [by rewrite rmatch_chr_nil in Hgroup|].
    rewrite rmatch_chr, colon_atom in Hgroup.
    destruct (Ascii.eqb_spec ch ":") as [->|]; [|done].
    rewrite rmatch_plus in Hgroup.
    apply repeat_chr_inv in Hgroup as (ds & sfx & -> & Hdne & Hds & Hsfx).
    cbv beta in Hsfx. rewrite rmatch_suffix in Hsfx.
    destruct (eq_ignore_case sfx "@lid") eqn:Hmarker; [|done].
    exists u, (String ":" ds), sfx.
    split; [done|]. split; [done|]. split; [right; by exists ds|done].
  - rewrite rmatch_suffix in Hk.
    destruct (eq_ignore_case rest "@lid") eqn:Hmarker; [|done].
    exists u, "", rest.
    split; [done|]. split; [done|]. split; [by left|done].
Qed.

(** X8. An address that ends in the marker but is not of the form
    [user[:digits]@lid] (two colons, a device that is not a number, an
    empty user part, a second [@]) is not taken apart: its bare identifier
    is the whole address and its device suffix is empty, so the mapping is
    looked up under the address as it was given. *)
Theorem malformed_lid_is_looked_up_whole :
  forall (W : Type) (h : Handler W) (w : W) (id : string),
    ends_with_ci "@lid" id -> ~ well_formed_lid id ->
    bare_of id = id
    /\ device_of id = ""
    /\ trace (run h (normalizeLidToJid id) w)
       = [Called (KeysGet LidMapping [id]) (answer h (KeysGet LidMapping [id]) w)].
Proof.
  intros W h w id Hlid%test_suffix Hbad.
  change (suffix_re "@lid") with re_lid in Hlid.
  assert (bare_of id = id) as Hbare.
  { unfold bare_of, replace.
    destruct (exec re_lid_bare id) as [mr|] eqn:H; [|done].
    destruct Hbad. by apply (exec_lid_bare_inv id mr). }
  split; [done|]. split.
  - unfold device_of, str_match.
    destruct (exec re_lid_device id) as [mr|] eqn:H; [|done].
    apply exec_lid_device_inv in H as (u & dev & sfx & -> & Hu & Hdev & Hsfx & _).
    destruct Hbad. exists u, dev, sfx.
    split; [done|]. split; [done|]. split; [by right|done].
  - rewrite run_normalize_lid by done. cbv zeta. cbn [trace]. by rewrite Hbare.
Qed.

Lemma malformed_lid_is_looked_up_whole_witness :
  bare_of "@lid" = "@lid"
  /\ device_of "@lid" = ""
  /\ trace (run handler (normalizeLidToJid "@lid") mapped_store)
     = [Called (KeysGet LidMapping ["@lid"])
               (answer handler (KeysGet LidMapping ["@lid"]) mapped_store)].
Proof.
  apply (malformed_lid_is_looked_up_whole Store handler mapped_store "@lid").
  - apply test_suffix. vm_compute. reflexivity.
  - intros (u & dev & sfx & Heq & [Hne _] & _ & Hsfx).
    apply (f_equal String.length) in Heq. rewrite !length_app in Heq.
    apply eq_ignore_case_length in Hsfx. rewrite Hsfx in Heq.
    destruct u as [|ch u]; [done|]. simpl in Heq. lia.
Defined.

(** Some addresses of that kind, run through the two expressions. *)
Example malformed_lid_examples :
  bare_of "1:2:3@lid" = "1:2:3@lid" /\ device_of "1:2:3@lid" = ""
  /\ bare_of "12:x@lid" = "12:x@lid" /\ device_of "12:x@lid" = ""
  /\ bare_of "12:@lid" = "12:@lid" /\ device_of "12:@lid" = ""
  /\ bare_of "a@b@lid" = "a@b@lid" /\ device_of "a@b@lid" = "".
Proof. vm_compute. repeat split. Qed.

(** X9. The letter case of the marker does not matter for a mapped
    address: two well-formed addresses with the same user part and device
    suffix, whose markers differ in case only, look up the same bare
    identifier, and when it has a non-empty entry they are normalised to
    the same address. *)
Theorem mapped_result_ignores_marker_case :
  forall (W : Type) (h : Handler W) (w : W) (u dev sfx1 sfx2 c : string)
         (res : gmap string string),
    is_user u -> dev = "" \/ is_device dev ->
    is_lid_marker sfx1 -> is_lid_marker sfx2 ->
    answer h (KeysGet LidMapping [u +:+ "@lid"]) w = Ok res ->
    res !! (u +:+ "@lid") = Some c -> c <> "" ->
    bare_of (u +:+ dev +:+ sfx1) = bare_of (u +:+ dev +:+ sfx2)
    /\ result (run h (normalizeLidToJid (u +:+ dev +:+ sfx1)) w)
       = result (run h (normalizeLidToJid (u +:+ dev +:+ sfx2)) w).
Proof.
  intros W h w u dev sfx1 sfx2 c res Hu Hdev Hsfx1 Hsfx2 Hans Hres Hc.
  assert (forall sfx, is_lid_marker sfx ->
            bare_of (u +:+ dev +:+ sfx) = u +:+ "@lid"
            /\ device_of (u +:+ dev +:+ sfx) = dev
            /\ test re_lid (u +:+ dev +:+ sfx) = true) as Hparts.
  { intros sfx Hsfx. split; [|split].
    - destruct Hdev as [->|Hdev]; [rewrite app_nil_l; by apply bare_of_plain|].
      by apply bare_of_device.
    - destruct Hdev as [->|Hdev]; [rewrite app_nil_l; by apply device_of_plain|].
      by apply device_of_device.
    - apply test_suffix. exists (u +:+ dev), sfx. by rewrite app_assoc. }
  destruct (Hparts sfx1 Hsfx1) as (Hb1 & Hd1 & Ht1).
  destruct (Hparts sfx2 Hsfx2) as (Hb2 & Hd2 & Ht2).
  split; [by rewrite Hb1, Hb2|].
  rewrite !run_normalize_lid by done. cbv zeta. cbn [result].
  rewrite Hb1, Hb2, Hans. unfold normalized.
  rewrite Hb1, Hb2, Hres, Hd1, Hd2. by rewrite bool_decide_eq_true_2 by done.
Qed.

Lemma mapped_result_ignores_marker_case_witness :
  bare_of ("123" +:+ ":4" +:+ "@LID") = bare_of ("123" +:+ ":4" +:+ "@lid")
  /\ result (run handler (normalizeLidToJid ("123" +:+ ":4" +:+ "@LID")) mapped_store)
     = result (run handler (normalizeLidToJid ("123" +:+ ":4" +:+ "@lid")) mapped_store).
Proof.
  apply (mapped_result_ignores_marker_case Store handler mapped_store "123" ":4"
           "@LID" "@lid" "555@s.whatsapp.net" {[ "123@lid" := "555@s.whatsapp.net" ]}).
  - split; [discriminate|reflexivity].
  - right. exists "4". split; [reflexivity|]. split; [discriminate|reflexivity].
  - reflexivity.
  - reflexivity.
  - vm_compute. reflexivity.
  - vm_compute. reflexivity.
  - discriminate.
Defined.

(** The result of [normalizeLidToJid] is decided by the answers of the
    mapping table. *)
Lemma normalize_result_by_answers {W : Type} (h : Handler W) (w w' : W) (id : string) :
  (forall ids, answer h (KeysGet LidMapping ids) w' = answer h (KeysGet LidMapping ids) w) ->
  result (run h (normalizeLidToJid id) w') = result (run h (normalizeLidToJid id) w).
Proof.
  intros Hsame. destruct (test re_lid id) eqn:Hlid.
  - rewrite !run_normalize_lid by done. cbv zeta. cbn [result]. by rewrite Hsame.
  - by rewrite !run_normalize_plain.
Qed.

Lemma normalize_world {W : Type} (h : Handler W) (w : W) (id : string) :
  mapping_reads_are_pure h -> world (run h (normalizeLidToJid id) w) = w.
Proof.
  intros Hpure. destruct (test re_lid id) eqn:Hlid.
  - rewrite run_normalize_lid by done. cbv zeta. cbn [world]. apply Hpure.
  - by rewrite run_normalize_plain.
Qed.

(** X10. A session stored under one address is the session loaded under
    every address with the same normalised form, in particular under the
    alternate address and the canonical address it is mapped to: when the
    store honours the write, [storeSession a record] followed by
    [loadSession b] returns [record]. *)
Theorem session_stored_is_loaded_under_alias :
  forall (creds : SignalCreds) (W : Type) (h : Handler W) (w : W)
         (a b norm : string) (record : SessionRecord),
    mapping_reads_are_pure h ->
    result (run h (normalizeLidToJid a) w) = Ok norm ->
    result (run h (normalizeLidToJid b) w) = Ok norm ->
    write_then_read h w Session norm (SessionRecord_serialize record) ->
    result (run h (let* _ := storeSession (signalStorage creds) a record in
                   loadSession (signalStorage creds) b)%prog w)
    = Ok (Some record).
Proof.
  intros creds W h w a b norm record Hpure Ha Hb Hlaw.
  unfold write_then_read in Hlaw. cbn [SignalDataTypeMap] in Hlaw.
  destruct Hlaw as (Hset & Hsame & res & Hget & Hres).
  rewrite run_bind. cbn [storeSession signalStorage SignalDataTypeMap].
  rewrite (run_bind h (normalizeLidToJid a)), Ha. cbv zeta. cbn [result world trace].
  rewrite (normalize_world h w a Hpure), run_call. cbn [result world trace].
  rewrite Hset. cbn [loadSession signalStorage].
  set (w' := after h (KeysSet Session _) w) in *.
  rewrite run_bind, (normalize_result_by_answers h w w' b Hsame), Hb.
  cbv zeta. cbn [result world trace].
  rewrite (normalize_world h w' b Hpure), run_bind, run_call.
  cbn [result world trace SignalDataTypeMap].
  rewrite Hget, Hres. cbn. by destruct record.
Qed.

Lemma memory_mapping_reads_are_pure : mapping_reads_are_pure handler.
Proof. intros ids w. unfold after. simpl. by destruct (broken w). Qed.

Lemma session_stored_is_loaded_under_alias_witness :
  let creds :=
    mkSignalCreds (mkKeyPair [] []) (mkSignedKeyPair (mkKeyPair [] []) [] 1%Z None) 7%Z in
  let record := SessionRecord_deserialize [Byte.x68; Byte.x69] in
  result (run handler
            (let* _ := storeSession (signalStorage creds) "123:4@lid" record in
             loadSession (signalStorage creds) "555:4@s.whatsapp.net")%prog mapped_store)
  = Ok (Some record).
Proof.
  apply (session_stored_is_loaded_under_alias
           (mkSignalCreds (mkKeyPair [] []) (mkSignedKeyPair (mkKeyPair [] []) [] 1%Z None) 7%Z)
           Store handler mapped_store "123:4@lid" "555:4@s.whatsapp.net"
           "555:4@s.whatsapp.net" (SessionRecord_deserialize [Byte.x68; Byte.x69])).
  - exact memory_mapping_reads_are_pure.
  - vm_compute. reflexivity.
  - vm_compute. reflexivity.
  - split; [reflexivity|]. split; [intros ids; reflexivity|].
    eexists. split; [reflexivity|]. vm_compute. reflexivity.
Defined.

(** X11. The same for sender keys: when the store honours the write,
    [storeSenderKey a record] followed by [loadSenderKey b] returns
    [record] for every two key ids with the same normalised form. *)
Theorem sender_key_stored_is_loaded_under_alias :
  forall (creds : SignalCreds) (W : Type) (h : Handler W) (w : W)
         (a b norm : string) (record : SenderKeyRecord),
    mapping_reads_are_pure h ->
    result (run h (normalizeLidToJid a) w) = Ok norm ->
    result (run h (normalizeLidToJid b) w) = Ok norm ->
    write_then_read h w SenderKey norm (SenderKeyRecord_serialize record) ->
    result (run h (let* _ := storeSenderKey (signalStorage creds) a record in
                   loadSenderKey (signalStorage creds) b)%prog w)
    = Ok (Some record).
Proof.
  intros creds W h w a b norm record Hpure Ha Hb Hlaw.
  unfold write_then_read in Hlaw. cbn [SignalDataTypeMap] in Hlaw.
  destruct Hlaw as (Hset & Hsame & res & Hget & Hres).
  rewrite run_bind. cbn [storeSenderKey signalStorage SignalDataTypeMap].
  rewrite (run_bind h (normalizeLidToJid a)), Ha. cbv zeta. cbn [result world trace].
  rewrite (normalize_world h w a Hpure), run_call. cbn [result world trace].
  rewrite Hset. cbn [loadSenderKey signalStorage].
  set (w' := after h (KeysSet SenderKey _) w) in *.
  rewrite run_bind, (normalize_result_by_answers h w w' b Hsame), Hb.
  cbv zeta. cbn [result world trace].
  rewrite (normalize_world h w' b Hpure), run_bind, run_call.
  cbn [result world trace SignalDataTypeMap].
  rewrite Hget, Hres. cbn. by destruct record.
Qed.

Lemma sender_key_stored_is_loaded_under_alias_witness :
  let creds :=
    mkSignalCreds (mkKeyPair [] []) (mkSignedKeyPair (mkKeyPair [] []) [] 1%Z None) 7%Z in
  let record := mkSenderKeyRecord [Byte.x68; Byte.x69] in
  result (run handler
            (let* _ := storeSenderKey (signalStorage creds) "123@LID" record in
             loadSenderKey (signalStorage creds) "555@s.whatsapp.net")%prog mapped_store)
  = Ok (Some record).
Proof.
  apply (sender_key_stored_is_loaded_under_alias
           (mkSignalCreds (mkKeyPair [] []) (mkSignedKeyPair (mkKeyPair [] []) [] 1%Z None) 7%Z)
           Store handler mapped_store "123@LID" "555@s.whatsapp.net"
           "555@s.whatsapp.net" (mkSenderKeyRecord [Byte.x68; Byte.x69])).
  - exact memory_mapping_reads_are_pure.
  - vm_compute. reflexivity.
  - vm_compute. reflexivity.
  - split; [reflexivity|]. split; [intros ids; reflexivity|].
    eexists. split; [reflexivity|]. vm_compute. reflexivity.
Defined.



(** The pre-key of the witness is there before it is removed. *)
Example pre_key_is_loaded :
  let st := mkStore ∅ ∅ ∅ {[ "31" := mkKeyPair [Byte.x01] [Byte.x02] ]} false in
  result (run handler (loadPreKey (IdNumber 31)) st)
  = Ok (Some (mkPreKeyBuffers [Byte.x02] [Byte.x01]))
  /\ result (run handler (loadPreKey (IdString "31")) st)
     = Ok (Some (mkPreKeyBuffers [Byte.x02] [Byte.x01])).
Proof. vm_compute. split; reflexivity. Qed.

(** X13. When no sender key is stored and the write of the empty record
    fails, [encryptGroupMessage] and [processSenderKeyDistributionMessage]
    raise the exception of the store and stop there: the builder and the
    cipher are not called. *)
Theorem group_operations_abort_when_record_cannot_be_stored :
  forall (jidDecode : string -> option FullJid)
         (SenderKeyName_toString : string -> ProtocolAddress -> string)
         (creds : SignalCreds) (W : Type) (h : Handler W) (w : W)
         (group jid senderName norm : string) (payload : bytes)
         (stored : gmap string bytes) (e : Error),
    jidToSignalSenderKeyName jidDecode SenderKeyName_toString group jid = Ok senderName ->
    answer h (KeysGet SenderKey [senderName]) w = Ok stored ->
    stored !! senderName = None ->
    let w1 := after h (KeysGet SenderKey [senderName]) w in
    let n := run h (normalizeLidToJid senderName) w1 in
    let write :=
      KeysSet SenderKey {[ norm := Some (SenderKeyRecord_serialize SenderKeyRecord_new) ]} in
    result n = Ok norm ->
    answer h write (world n) = Raise e ->
    let aborted :=
      Called (KeysGet SenderKey [senderName]) (Ok stored)
        :: trace n ++ [Called write (Raise e)] in
    (let r := run h (encryptGroupMessage jidDecode SenderKeyName_toString creds
                       group jid payload) w in
     result r = Raise e /\ trace r = aborted)
    /\ (let r := run h (processSenderKeyDistributionMessage jidDecode
                          SenderKeyName_toString creds group payload jid) w in
        result r = Raise e /\ trace r = aborted).
Proof.
  intros jidDecode toString creds W h w group jid senderName norm payload stored e
    Hname Hget Hnone. cbv zeta. intros Hnorm Hset.
  assert (forall (A : Type) (k : unit -> Prog A),
            let r := run h (let* _ := storeSenderKey (signalStorage creds) senderName
                                        SenderKeyRecord_new in k tt)%prog
                       (after h (KeysGet SenderKey [senderName]) w) in
            result r = Raise e
            /\ trace r
               = trace (run h (normalizeLidToJid senderName)
                          (after h (KeysGet SenderKey [senderName]) w))
                 ++ [Called (KeysSet SenderKey
                               {[ norm := Some (SenderKeyRecord_serialize
                                                  SenderKeyRecord_new) ]})
                            (Raise e)]) as Hstore.
  { intros A k. cbv zeta. rewrite run_bind. cbn [storeSenderKey signalStorage].
    rewrite (run_bind h (normalizeLidToJid senderName)), Hnorm. cbv zeta.
    cbn [result world trace]. rewrite run_call. cbn [result world trace].
    by rewrite Hset. }
  split.
  - unfold encryptGroupMessage. rewrite run_bind, run_lift, Hname.
    cbn [result world trace app]. rewrite run_bind, run_call, Hget.
    cbn [result world trace app]. rewrite Hnone. unfold storage.
    destruct (Hstore _ (fun _ =>
      (let* skdm := call (GroupCreate senderName) in
       let* ciphertext := call (GroupEncrypt senderName payload) in
       Ret (mkGroupEncrypted ciphertext (SenderKeyDistributionMessage_serialize skdm)))%prog))
      as [Hres Htrace].
    split; [exact Hres|]. by f_equal.
  - unfold processSenderKeyDistributionMessage. rewrite run_bind, run_lift, Hname.
    cbn [result world trace app]. rewrite run_bind, run_call, Hget.
    cbn [result world trace app]. rewrite Hnone. unfold storage.
    destruct (Hstore _ (fun _ =>
      call (GroupProcess senderName (mkSenderKeyDistributionMessage payload))))
      as [Hres Htrace].
    split; [exact Hres|]. by f_equal.
Qed.

Lemma group_operations_abort_when_record_cannot_be_stored_witness :
  let creds :=
    mkSignalCreds (mkKeyPair [] []) (mkSignedKeyPair (mkKeyPair [] []) [] 1%Z None) 7%Z in
  let senderName := "120363@g.us::555::2" in
  let e := Thrown "store is read-only" in
  let write :=
    KeysSet SenderKey
      {[ senderName := Some (SenderKeyRecord_serialize SenderKeyRecord_new) ]} in
  let aborted :=
    Called (KeysGet SenderKey [senderName]) (Ok (∅ : gmap string bytes))
      :: trace (run read_only_handler (normalizeLidToJid senderName)
                  (after read_only_handler (KeysGet SenderKey [senderName]) empty_store))
      ++ [Called write (Raise e)] in
  (let r := run read_only_handler
              (encryptGroupMessage SpecModel.jidDecode SpecModel.SenderKeyName_toString
                 creds "120363@g.us" "555:2@s.whatsapp.net" []) empty_store in
   result r = Raise e /\ trace r = aborted)
  /\ (let r := run read_only_handler
                 (processSenderKeyDistributionMessage SpecModel.jidDecode
                    SpecModel.SenderKeyName_toString creds "120363@g.us" []
                    "555:2@s.whatsapp.net") empty_store in
      result r = Raise e /\ trace r = aborted).
Proof.
  apply (group_operations_abort_when_record_cannot_be_stored SpecModel.jidDecode
           SpecModel.SenderKeyName_toString
           (mkSignalCreds (mkKeyPair [] []) (mkSignedKeyPair (mkKeyPair [] []) [] 1%Z None) 7%Z)
           Store read_only_handler empty_store "120363@g.us" "555:2@s.whatsapp.net"
           "120363@g.us::555::2" "120363@g.us::555::2" [] ∅ (Thrown "store is read-only")).
  - vm_compute. reflexivity.
  - vm_compute. reflexivity.
  - reflexivity.
  - vm_compute. reflexivity.
  - vm_compute. reflexivity.
Defined.

(** X14. The bare identifier carries no device suffix and is stable, for
    every address: taking it apart again gives an empty device suffix and
    the same bare identifier. *)
Theorem bare_identifier_is_device_free :
  forall (id : string),
    device_of (bare_of id) = "" /\ bare_of (bare_of id) = bare_of id.
Proof.
  intros id.
  assert (is_lid_marker "@lid") as Hmarker by reflexivity.
  destruct (exec re_lid_bare id) as [mr|] eqn:Hexec.
  - destruct (exec_lid_bare_inv id mr Hexec) as (u & dev & sfx & -> & Hu & Hdev & Hsfx).
    assert (bare_of (u +:+ dev +:+ sfx) = u +:+ "@lid") as ->.
    { destruct Hdev as [->|Hdev]; [rewrite app_nil_l; by apply bare_of_plain|].
      by apply bare_of_device. }
    split; [by apply device_of_plain|by apply bare_of_plain].
  - assert (bare_of id = id) as Hbare by (unfold bare_of, replace; by rewrite Hexec).
    rewrite !Hbare. split; [|done].
    unfold device_of, str_match.
    destruct (exec re_lid_device id) as [mr|] eqn:Hdevice; [|done].
    apply exec_lid_device_inv in Hdevice as (u & dev & sfx & -> & Hu & Hdev & Hsfx & _).
    by rewrite exec_lid_bare_device in Hexec.
Qed.

(** X15. The normalised form of an address that is not empty is not
    empty: a record is never stored under the empty key because of the
    normalisation. *)
Theorem normalized_address_is_not_empty :
  forall (W : Type) (h : Handler W) (w : W) (id norm : string),
    id <> "" ->
    result (run h (normalizeLidToJid id) w) = Ok norm ->
    norm <> "".
Proof.
  intros W h w id norm Hid. destruct (test re_lid id) eqn:Hlid.
  - rewrite run_normalize_lid by done. cbv zeta. cbn [result]. intros [= <-].
    unfold normalized.
    destruct (answer h _ w) as [res|e]; [|done].
    destruct (res !! bare_of id) as [c|]; [|done].
    case_bool_decide as Hc; [|done].
    destruct (test (suffix_re "@s.whatsapp.net") c) eqn:Ht.
    + apply test_suffix in Ht as (p & sfx & -> & Hsfx).
      rewrite replace_jid_marker by (done || apply device_of_shape).
      intros Hempty. apply (f_equal String.length) in Hempty.
      rewrite !length_app in Hempty. simpl in Hempty. lia.
    + apply test_suffix_false in Ht. by rewrite replace_no_jid_marker.
  - rewrite run_normalize_plain by done. by intros [= <-].
Qed.

Lemma normalized_address_is_not_empty_witness :
  "555:4@s.whatsapp.net" <> "".
Proof.
  apply (normalized_address_is_not_empty Store handler mapped_store "123:4@lid"
           "555:4@s.whatsapp.net").
  - discriminate.
  - vm_compute. reflexivity.
Defined.
